(** * JStream: streaming JSON serialisation

    A shallow embedding of [src/index.js]: the [JStream] readable, its
    generator trio [jsonGenerator] / [arrayGenerator] / [objectGenerator]
    and the demand handler [_read].

    JavaScript values are a tagged tree; a generator is the list of the
    things it does when it is advanced (replacer calls, writes to the
    stream object, yields) together with the way it stops; the stream
    object is a record threaded through [_read]. *)

From Stdlib Require Import List String Ascii Arith ZArith Bool Lia.
From Stdlib Require Import DecimalString.
Import ListNotations.

Local Open Scope string_scope.
Local Open Scope list_scope.

Set Warnings "-register-all".

(* ================================================================== *)
(** * Part I: the model *)

(** ** Text utilities *)

Definition dquote_char : ascii := "034"%char.
Definition backslash_char : ascii := "092"%char.
Definition dquote : string := String dquote_char EmptyString.
Definition backslash : string := String backslash_char EmptyString.

(** The concatenation of a list of strings. *)
Definition join (l : list string) : string :=
  fold_right String.append EmptyString l.

(** [Number(i).toString()] for an array index. *)
Definition index_toString (i : nat) : string :=
  NilZero.string_of_uint (Nat.to_uint i).

(** [s.slice(1, -1)]: drop the first and the last code unit. *)
Fixpoint drop_last (s : string) : string :=
  match s with
  | EmptyString => EmptyString
  | String _ EmptyString => EmptyString
  | String c rest => String c (drop_last rest)
  end.

Definition slice_1_m1 (s : string) : string :=
  match s with
  | EmptyString => EmptyString
  | String _ rest => drop_last rest
  end.

(** ** The platform's JSON text rules (ECMA-262, 25.5.2)

    Strings are sequences of code units below 256; a number [z] stands for
    the double whose value is the integer [z], which [Number::toString]
    prints in plain decimal for [|z| < 10^21]. *)

Module JSON.

Definition hex_digit (n : nat) : ascii :=
    match n with
    | 0 => "0" | 1 => "1" | 2 => "2" | 3 => "3" | 4 => "4" | 5 => "5"
    | 6 => "6" | 7 => "7" | 8 => "8" | 9 => "9" | 10 => "a" | 11 => "b"
    | 12 => "c" | 13 => "d" | 14 => "e" | _ => "f"
    end%char.

  (** One code unit of QuoteJSONString. *)
Definition escape_char (c : ascii) : string :=
    let n := nat_of_ascii c in
    if (n =? 8)%nat then backslash ++ "b"
    else if (n =? 9)%nat then backslash ++ "t"
    else if (n =? 10)%nat then backslash ++ "n"
    else if (n =? 12)%nat then backslash ++ "f"
    else if (n =? 13)%nat then backslash ++ "r"
    else if (n =? 34)%nat then backslash ++ dquote
    else if (n =? 92)%nat then backslash ++ backslash
    else if (n <? 32)%nat then
      backslash ++ "u00" ++ String (hex_digit (n / 16)) (String (hex_digit (n mod 16)) EmptyString)
    else String c EmptyString.

Fixpoint escape (s : string) : string :=
    match s with
    | EmptyString => EmptyString
    | String c rest => escape_char c ++ escape rest
    end.

  (** QuoteJSONString: [JSON.stringify] of a string. *)
Definition quote (s : string) : string := dquote ++ escape s ++ dquote.

  (** The safe integers: every one of them is a number of the platform,
      and Number::toString prints it with all its digits.  Larger
      integers are not all numbers, and from 10^21 on the platform prints
      an exponent: the digits below are those of the platform on the safe
      integers only. *)
Definition safe_integer (z : Z) : bool := (Z.abs z <? 2 ^ 53)%Z.

Definition number (z : Z) : string := NilZero.string_of_int (Z.to_int z).

Definition boolean (b : bool) : string := if b then "true" else "false".

  (** Comma-joined members, as SerializeJSONArray / SerializeJSONObject
      assemble them. *)
Fixpoint commas (parts : list string) : string :=
    match parts with
    | [] => EmptyString
    | [p] => p
    | p :: rest => p ++ "," ++ commas rest
    end.

  (** JSON-representable data: what [JSON.parse] can return. *)
Inductive json : Type :=
  | JNull
  | JBool (b : bool)
  | JNum (z : Z)
  | JStr (s : string)
  | JArr (items : list json)
  | JObj (props : list (string * json)).

  (** [JSON.stringify(j)] with no replacer and no indentation
      (SerializeJSONProperty, SerializeJSONArray, SerializeJSONObject). *)
Fixpoint stringify (j : json) : string :=
    match j with
    | JNull => "null"
    | JBool b => boolean b
    | JNum z => number z
    | JStr s => quote s
    | JArr items => "[" ++ commas (map stringify items) ++ "]"
    | JObj props =>
        "{" ++ commas (map (fun '(key, x) => (quote key ++ ":" ++ stringify x)%string)
                           props) ++ "}"
    end%string.

End JSON.

(** ** Values

    - [VFun ret] is a function object; the engine only ever tests such a
      value with [instanceof Function] or calls it as a [toJSON] method,
      so it is represented by what it returns when called.
    - [VArr] is a dense array.
    - [VObj] lists the enumerable properties of a plain object in
      property-enumeration order, keys pairwise distinct.
    - [VFulfils t v] and [VRejects t e] are promises that settle at
      instant [t] with value [v], respectively with an error of message
      [e].
    - [VText chunks failure] is a [Readable] with [objectMode] off that
      delivers [chunks] and then ends, or fails with [failure].
    - [VItems items failure] is a [Readable] in object mode.

    Every occurrence of a promise or of a stream in a tree is an object of
    its own. *)

Inductive value : Type :=
| VUndefined
| VNull
| VBool (b : bool)
| VNum (z : Z)
| VNaN
| VStr (s : string)
| VFun (ret : value)
| VArr (items : list value)
| VObj (props : list (string * value))
| VFulfils (t : nat) (v : value)
| VRejects (t : nat) (e : string)
| VText (chunks : list string) (failure : option string)
| VItems (items : list value) (failure : option string).

(** [x === undefined || x instanceof Function] *)
Definition absent (x : value) : bool :=
  match x with
  | VUndefined | VFun _ => true
  | _ => false
  end.

(** [obj[key]] *)
Fixpoint get (props : list (string * value)) (key : string) : value :=
  match props with
  | [] => VUndefined
  | (k, x) :: rest => if String.eqb k key then x else get rest key
  end.

(** [toJSON] (index.js, line 6). Only plain objects carry properties in
    this model, so only they can own the hook. *)
Definition toJSON (v : value) : value :=
  match v with
  | VObj props =>
      match get props "toJSON" with
      | VFun ret => ret
      | _ => v
      end
  | _ => v
  end.

(** [JSON.stringify(value)] where the generator calls it: on a value that
    is neither an array, a promise, a stream nor a non-null object.
    [None] is the result [undefined]. *)
Definition JSON_stringify_leaf (v : value) : option string :=
  match v with
  | VNull => Some "null"
  | VBool b => Some (JSON.boolean b)
  | VNum z => Some (JSON.number z)
  | VNaN => Some "null"
  | VStr s => Some (JSON.quote s)
  | _ => None
  end.

(** ** The replacer argument

    The second argument of the constructor is any JavaScript value.  A
    replacer written for the purpose is [RFn f], with [f key value] the
    result of [replacer.call(holder, key, value)] ([key] is [None] for
    [undefined]); such functions are taken not to look at [this].  Any
    other argument is [RVal v]; the function object [VFun ret] returns
    [ret] whatever it is called with. *)

Inductive replacer_arg : Type :=
| RVal (v : value)
| RFn (f : option string -> value -> value).

Definition truthy (v : value) : bool :=
  match v with
  | VUndefined | VNull | VBool false | VNaN => false
  | VNum z => negb (Z.eqb z 0)
  | VStr s => negb (String.eqb s EmptyString)
  | _ => true
  end.

(** [!replacer] *)
Definition falsy_replacer (r : replacer_arg) : bool :=
  match r with
  | RVal v => negb (truthy v)
  | RFn _ => false
  end.

(** [typeof replacer === 'function'], [replacer instanceof Function];
    the function itself when it is one. *)
Definition as_function (r : replacer_arg) : option (option string -> value -> value) :=
  match r with
  | RFn f => Some f
  | RVal (VFun ret) => Some (fun _ _ => ret)
  | RVal _ => None
  end.

(** [Array.isArray(replacer)]; the array itself when it is one. *)
Definition as_array (r : replacer_arg) : option (list value) :=
  match r with
  | RVal (VArr l) => Some l
  | _ => None
  end.

Definition is_some {A : Type} (o : option A) : bool :=
  match o with Some _ => true | None => false end.

(** The function installed by lines 17-19. *)
Definition identity_replacer : option string -> value -> value :=
  fun _ value => value.

(** Lines 16-20 of the constructor. *)
Definition normalize_replacer (replacer : replacer_arg) : replacer_arg :=
  if falsy_replacer replacer
     || (negb (is_some (as_function replacer)) && negb (is_some (as_array replacer)))
  then RFn identity_replacer
  else replacer.

(** [replacer.includes(key)] for a string [key]: SameValueZero. *)
Definition includes (l : list value) (key : string) : bool :=
  existsb (fun x => match x with VStr s => String.eqb s key | _ => false end) l.

(** ** Generators

    Advancing a generator runs its body up to the next [yield].  A
    generator is represented by everything its body does, in order, if it
    is always resumed, and by the way the body stops. *)

(** How a bound source finishes.  [EndUnknown], like [Unknown] below: the
    model does not follow the run further (recursion budget used up, or
    behaviour that depends on parts of the platform outside the model). *)
Inductive ending : Type :=
| Ended
| Failed (e : string)
| EndUnknown.

(** What [self.src] can hold: a text [Readable] with the chunks it has
    still to deliver, or an [ObjectReader] with the fragments it has still
    to deliver. *)
Inductive source : Type :=
| Raw (chunks : list string) (failure : option string)
| ObjectReader (frags : list string) (fin : ending).

Inductive yielded : Type :=
| YString (s : string)
| YUndefined
| YPromise (t : nat) (rejection : option string).

Inductive gevent : Type :=
| Call (key : option string) (arg : value)   (* replacer.call(_, key, arg) *)
| SetPMode (b : bool)                        (* self.pMode = b *)
| SetSrc (s : source)                        (* self.src = s, listeners attached *)
| Yield (y : yielded).                       (* yield y *)

Inductive completion : Type :=
| Returned                (* the body ran to its end *)
| Threw (e : string)      (* an exception left the body *)
| Parked                  (* suspended at a yield that is never resumed *)
| Unknown.                (* the model does not follow the body further *)

Record generator : Type := MkGen {
  events : list gevent;
  completion_of : completion
}.

Definition skip : generator := MkGen [] Returned.
Definition perform (e : gevent) : generator := MkGen [e] Returned.
Definition yield_ (s : string) : generator := perform (Yield (YString s)).
Definition stop (c : completion) : generator := MkGen [] c.

(** Sequencing of two pieces of a generator body, [yield*] included. *)
Definition gseq (a b : generator) : generator :=
  match completion_of a with
  | Returned => MkGen (events a ++ events b) (completion_of b)
  | _ => a
  end.

Declare Scope gen_scope.
Delimit Scope gen_scope with gen.
Notation "a ;; b" := (gseq a b) (at level 61, right associativity) : gen_scope.
Local Open Scope gen_scope.

(** ** The stream object and [_read]

    [clock] is the instant of the host's event loop; it only moves when
    the stream waits for a promise to settle. *)

Record JStream : Type := MkJStream {
  jsonIterator : generator;
  src : option source;
  pMode : bool;
  clock : nat
}.

Definition set_events (self : JStream) (evs : list gevent) : JStream :=
  MkJStream (MkGen evs (completion_of (jsonIterator self))) (src self) (pMode self) (clock self).
Definition set_src (self : JStream) (s : option source) : JStream :=
  MkJStream (jsonIterator self) s (pMode self) (clock self).
Definition set_pMode (self : JStream) (b : bool) : JStream :=
  MkJStream (jsonIterator self) (src self) b (clock self).
Definition set_clock (self : JStream) (t : nat) : JStream :=
  MkJStream (jsonIterator self) (src self) (pMode self) t.

(** Outbound signals of the readable: a pushed chunk, end of output
    ([push(null)]), the ['error'] event; [Uncaught e] is an exception that
    leaves [_read]. *)
Inductive signal : Type :=
| Data (chunk : string)
| End
| Error (e : string)
| Uncaught (e : string)
| Cutoff.

Inductive iter_result : Type :=
| IterYield (y : yielded)
| IterDone
| IterThrow (e : string)
| IterUnknown.

(** [this.jsonIterator.next()]: the body runs up to its next [yield]. *)
Fixpoint next_from (evs : list gevent) (self : JStream) : iter_result * JStream :=
  match evs with
  | [] =>
      (match completion_of (jsonIterator self) with
       | Returned => IterDone
       | Threw e => IterThrow e
       | Parked | Unknown => IterUnknown
       end, set_events self [])
  | Call _ _ :: rest => next_from rest self
  | SetPMode b :: rest => next_from rest (set_pMode self b)
  | SetSrc s :: rest => next_from rest (set_src self (Some s))
  | Yield y :: rest => (IterYield y, set_events self rest)
  end.

Definition next (self : JStream) : iter_result * JStream :=
  next_from (events (jsonIterator self)) self.

Definition invalid_chunk : string := "ERR_INVALID_ARG_TYPE".
Definition not_a_function : string := "TypeError".

(** [this.push(value)] inside the [then] callback of line 173, with the
    [catch] of line 177 around it. *)
Definition push_resumed (r : iter_result) : signal :=
  match r with
  | IterYield (YString s) => Data s
  | IterYield YUndefined => Data EmptyString
  | IterYield (YPromise _ _) => Error invalid_chunk
  | IterDone => Data EmptyString
  | IterThrow e => Error e
  | IterUnknown => Cutoff
  end.

(** Lines 161-180: [_read] with no source bound. *)
Definition read_iterator (self : JStream) : signal * JStream :=
  let (r, self) := next self in
  match r with
  | IterThrow e => (Uncaught e, self)
  | IterUnknown => (Cutoff, self)
  | IterDone => (End, self)
  | IterYield YUndefined => (Data EmptyString, self)
  | IterYield value =>
      if pMode self then
        match value with
        | YPromise t None =>
            let (r', self') := next (set_clock self (Nat.max (clock self) t)) in
            (push_resumed r', self')
        | YPromise t (Some e) =>
            (Error e, set_clock self (Nat.max (clock self) t))
        | _ => (Uncaught not_a_function, self)
        end
      else
        match value with
        | YString s => (Data s, self)
        | _ => (Error invalid_chunk, self)
        end
  end.

(** [_read] (lines 148-181).  With a source bound, the stream waits for
    the source's next event: a chunk is forwarded, the end unbinds the
    source and calls [_read] again, an error is re-emitted. *)
Definition _read (self : JStream) : signal * JStream :=
  match src self with
  | Some (Raw (x :: chunks) failure) =>
      (Data (slice_1_m1 (JSON.quote x)), set_src self (Some (Raw chunks failure)))
  | Some (ObjectReader (x :: frags) fin) =>
      (Data x, set_src self (Some (ObjectReader frags fin)))
  | Some (Raw [] None) | Some (ObjectReader [] Ended) =>
      read_iterator (set_src self None)
  | Some (Raw [] (Some err)) | Some (ObjectReader [] (Failed err)) =>
      (Error err, self)
  | Some (ObjectReader [] EndUnknown) => (Cutoff, self)
  | None => read_iterator self
  end.

(** The readable calls [_read] again only once the previous call has
    pushed a chunk. *)
Definition is_data (s : signal) : bool :=
  match s with Data _ => true | _ => false end.

Fixpoint flow (pulses : nat) (self : JStream) : list signal :=
  match pulses with
  | 0 => []
  | S pulses =>
      let (s, self') := _read self in
      s :: (if is_data s then flow pulses self' else [])
  end.

(** An upper bound on the number of chunks a stream can still push. *)
Definition source_weight (s : source) : nat :=
  match s with
  | Raw chunks _ => List.length chunks
  | ObjectReader frags _ => List.length frags
  end.

Fixpoint events_weight (evs : list gevent) : nat :=
  match evs with
  | [] => 0
  | SetSrc s :: rest => S (source_weight s + events_weight rest)
  | _ :: rest => S (events_weight rest)
  end.

Definition weight (self : JStream) : nat :=
  events_weight (events (jsonIterator self))
  + match src self with Some s => source_weight s | None => 0 end.

(** Everything the stream emits when it is read to the end. *)
Definition run (self : JStream) : list signal := flow (S (weight self)) self.

Definition chunk_of (s : signal) : string :=
  match s with Data c => c | _ => EmptyString end.

(** The text a consumer collects: [result += data]. *)
Definition output (sigs : list signal) : string := join (map chunk_of sigs).

(** ** The generators of the constructor *)

(** [x => (x === undefined || x instanceof Function) ? null : x] *)
Definition nullify (x : value) : value := if absent x then VNull else x.

Fixpoint mapi {A B : Type} (f : nat -> A -> B) (i : nat) (l : list A) : list B :=
  match l with
  | [] => []
  | x :: rest => f i x :: mapi f (S i) rest
  end.

Fixpoint characters (s : string) : list value :=
  match s with
  | EmptyString => []
  | String c rest => VStr (String c EmptyString) :: characters rest
  end.

Definition indexed (l : list value) : list (string * value) :=
  mapi (fun i x => (index_toString i, x)) 0 l.

(** The one key that an assignment [obj[key] = x] does not store: it
    reaches the accessor that [Object.prototype] has under that name. *)
Definition proto_key : string := "__proto__".

Definition is_proto_key (key : string) : bool := String.eqb key proto_key.

(** Whether the accessor takes [x] as the new prototype of [obj]: an
    object other than [null].  It ignores every other value but [null],
    which leaves [obj] without a prototype, and in no case does [obj] get
    a key of its own. *)
Definition changes_prototype (x : value) : bool :=
  match x with
  | VObj _ | VArr _ | VFun _ | VFulfils _ _ | VRejects _ _
  | VText _ _ | VItems _ _ => true
  | _ => false
  end.

Definition is_stream (x : value) : bool :=
  match x with
  | VText _ _ | VItems _ _ => true
  | _ => false
  end.

(** The own keys of the fresh object after [Object.assign({}, r)] has
    assigned the members of [r] one by one.  A member under [proto_key]
    is not stored.  Once one has given the copy another prototype, the
    loop of line 114 also meets what the copy inherits, which is outside
    the model: [None]. *)
Fixpoint assigned (props : list (string * value)) : option (list (string * value)) :=
  match props with
  | [] => Some []
  | (key, x) :: rest =>
      if is_proto_key key then
        if changes_prototype x then None else assigned rest
      else
        match assigned rest with
        | Some obj => Some ((key, x) :: obj)
        | None => None
        end
  end.

(** The properties [Object.assign({}, r)] copies.  The fields of a stream
    object are not part of the model. *)
Definition own_enumerable (r : value) : option (list (string * value)) :=
  match r with
  | VObj props => assigned props
  | VArr items => Some (indexed items)
  | VStr s => Some (indexed (characters s))
  | VText _ _ | VItems _ _ => None
  | _ => Some []
  end.

(** Lines 114-121: the loop over the keys of the working copy. *)
Fixpoint replace_members (f : option string -> value -> value)
    (obj : list (string * value)) : list (string * value) :=
  match obj with
  | [] => []
  | (key, x) :: rest =>
      let value := f (Some key) x in
      if absent value then replace_members f rest
      else (key, value) :: replace_members f rest
  end.

(** Lines 125-131: the loop over the keys of [value] under an array
    replacer. *)
Fixpoint allowed_members (allow : list value)
    (props : list (string * value)) : list (string * value) :=
  match props with
  | [] => []
  | (key, x) :: rest =>
      if absent x || negb (includes allow key) || is_proto_key key
      then allowed_members allow rest
      else (key, x) :: allowed_members allow rest
  end.

(** Whether line 130 gives the copy a stream as its prototype.  The
    assignments that follow then reach the accessors of the stream
    classes, which are outside the model.  With any other prototype the
    later assignments still create own keys. *)
Definition inherits_stream (allow : list value) (props : list (string * value)) : bool :=
  existsb (fun kx => is_proto_key (fst kx) && includes allow (fst kx) && is_stream (snd kx))
          props.

Definition key_fragment (key : string) : string := dquote ++ key ++ dquote ++ ":".

(** The chunks among signals, and the signal a run stops with. *)
Definition chunks_of (sigs : list signal) : list string :=
  flat_map (fun s => match s with Data c => [c] | _ => [] end) sigs.

Definition fresh (it : generator) : JStream := MkJStream it None false 0.

(** What the [then] callback of line 173 is called with.  A promise
    resolved with a promise takes over its outcome: the callback never
    receives a promise, but the value the innermost one fulfils with, once
    all of them have settled; if one rejects, the whole rejects with its
    error.  An object with a [then] method of its own, which the platform
    would call in the same way, is outside the model. *)
Fixpoint outcome (t : nat) (resolved : value) : (nat * value) + (nat * string) :=
  match resolved with
  | VFulfils t' x => outcome (Nat.max t t') x
  | VRejects t' e => inr (Nat.max t t', e)
  | _ => inl (t, resolved)
  end.

Section Generators.

Variable replacer : replacer_arg.

Section Body.

    (** What a recursive call [jsonGenerator(x)] stands for. *)
Variable jsonGenerator_rec : value -> generator.

    (** Modelled from the spec: [src/object.reader.js], the class behind
        [new ObjectReader(value, replacer)], is not among the sources.
        Following section 4.4 it delivers, item by item and in arrival
        order, the fragments of a full serialisation of the item under the
        same replacer (hook resolution included), a comma before every
        item but the first; an item that is absent or a function counts as
        [null], as in a sequence.  The brackets are not its own: lines 49
        and 50 of [jsonGenerator] yield them.  It ends when the item
        source ends and fails when the item source, or the serialisation
        of an item, fails. *)
Fixpoint reader_output (first : bool) (items : list value)
        (failure : option string) : list string * ending :=
      match items with
      | [] => ([], match failure with None => Ended | Some e => Failed e end)
      | item :: rest =>
          let sigs := run (fresh (jsonGenerator_rec (toJSON (nullify item)))) in
          let frags := (if first then [] else [","]) ++ chunks_of sigs in
          match last sigs Cutoff with
          | End =>
              let (more, fin) := reader_output false rest failure in
              (frags ++ more, fin)
          | Error e => (frags, Failed e)
          | _ => (frags, EndUnknown)
          end
      end.

Definition new_ObjectReader (items : list value) (failure : option string) : source :=
      let (frags, fin) := reader_output true items failure in
      ObjectReader frags fin.

    (** Lines 91-99. *)
Fixpoint elements (arr : list value) : generator :=
      match arr with
      | [] => skip
      | x :: rest =>
          match rest with
          | [] => jsonGenerator_rec (toJSON x)
          | _ => jsonGenerator_rec (toJSON x) ;; yield_ "," ;; elements rest
          end
      end.

(** Whether [r.map] may be callable although [r] is not an array: an
        object with a [map] method of its own, or a stream (recent
        platforms give every [Readable] a [map] helper). *)
Definition has_map_method (r : value) : bool :=
      match r with
      | VObj props => match get props "map" with VFun _ => true | _ => false end
      | VText _ _ | VItems _ _ => true
      | _ => false
      end.

Definition arrayGenerator (value : list value) : generator :=
      match as_function replacer with
      | Some f =>
          perform (Call None (VArr value)) ;;
          match f None (VArr value) with
          | VArr a =>
              MkGen (mapi (fun i x => Call (Some (index_toString i)) x) 0 a) Returned ;;
              yield_ "[" ;;
              elements (mapi (fun i x => nullify (f (Some (index_toString i)) x)) 0 a) ;;
              yield_ "]"
          | r => stop (if has_map_method r then Unknown else Threw not_a_function)
          end
      | None =>
          yield_ "[" ;; elements (map nullify value) ;; yield_ "]"
      end.

    (** Lines 134-143. *)
Fixpoint members (obj : list (string * value)) : generator :=
      match obj with
      | [] => skip
      | (key, x) :: rest =>
          match rest with
          | [] => yield_ (key_fragment key) ;; jsonGenerator_rec (toJSON x)
          | _ => yield_ (key_fragment key) ;; jsonGenerator_rec (toJSON x) ;;
                 yield_ "," ;; members rest
          end
      end.

Definition objectGenerator (value : list (string * value)) : generator :=
      yield_ "{" ;;
      match as_function replacer, as_array replacer with
      | Some f, _ =>
          perform (Call None (VObj value)) ;;
          match own_enumerable (f None (VObj value)) with
          | Some obj =>
              MkGen (map (fun kx => Call (Some (fst kx)) (snd kx)) obj) Returned ;;
              members (replace_members f obj) ;;
              yield_ "}"
          | None => stop Unknown
          end
      | None, Some allow =>
          if inherits_stream allow value then stop Unknown
          else members (allowed_members allow value) ;; yield_ "}"
      | None, None => stop (Threw not_a_function)
      end.

    (** Lines 27-71. *)
Definition jsonGenerator_body (v : value) : generator :=
      match v with
      | VArr items => arrayGenerator items
      | VFulfils t resolved =>
          match outcome t resolved with
          | inl (t', x) =>
              perform (SetPMode true) ;;
              perform (Yield (YPromise t' None)) ;;
              perform (SetPMode false) ;;
              jsonGenerator_rec x
          | inr (t', e) =>
              perform (SetPMode true) ;;
              perform (Yield (YPromise t' (Some e))) ;;
              stop Parked
          end
      | VRejects t e =>
          perform (SetPMode true) ;;
          perform (Yield (YPromise t (Some e))) ;;
          stop Parked
      | VItems items failure =>
          perform (SetSrc (new_ObjectReader items failure)) ;;
          yield_ "[" ;; yield_ "]"
      | VText chunks failure =>
          perform (SetSrc (Raw chunks failure)) ;;
          yield_ dquote ;; yield_ dquote
      | VObj props => objectGenerator props
      | _ =>
          perform (Yield (match JSON_stringify_leaf v with
                          | Some s => YString s
                          | None => YUndefined
                          end))
      end.

End Body.

  (** [fuel] bounds the depth of nested [jsonGenerator] calls. *)
Fixpoint jsonGenerator (fuel : nat) (v : value) : generator :=
    match fuel with
    | 0 => stop Unknown
    | S fuel => jsonGenerator_body (jsonGenerator fuel) v
    end.

End Generators.

(** The constructor (lines 12-24). *)
Definition new_JStream (fuel : nat) (obj : value) (replacer : replacer_arg) : JStream :=
  let obj := toJSON obj in
  let replacer := normalize_replacer replacer in
  fresh (jsonGenerator replacer fuel obj).

(** Reading [new JStream(obj, replacer)] to the end. *)
Definition serialize (fuel : nat) (obj : value) (replacer : replacer_arg) : list signal :=
  run (new_JStream fuel obj replacer).

Definition no_replacer : replacer_arg := RVal VUndefined.

(* ================================================================== *)
(** * Part II: the vocabulary of the properties *)

(** ** Runs *)

Definition src_weight (o : option source) : nat :=
  match o with Some s => source_weight s | None => 0 end.

(** The stream object with the given generator events and completion,
    bound source, mode and clock. *)
Abbreviation St evs c s pm clk := (MkJStream (MkGen evs c) s pm clk).

Definition ending_signal (fin : ending) : list signal :=
  match fin with
  | Ended => []
  | Failed e => [Error e]
  | EndUnknown => [Cutoff]
  end.

(** Two chunks: an a, a double quote and a b; a line feed and a c. *)
Definition funky_chunks : list string :=
  [ ("a" ++ dquote ++ "b")%string; String "010"%char "c" ].

(** Fragment groups, a comma before every group but the first. *)
Fixpoint separated (first : bool) (parts : list (list string)) : list string :=
  match parts with
  | [] => []
  | p :: rest => (if first then [] else [","]) ++ p ++ separated false rest
  end.

(** ** What a run depends on

    The signals of a run do not depend on the replacer calls the
    generator makes on its way, on the instants at which promises settle,
    or on the clock. *)

Definition observe_event (e : gevent) : list gevent :=
  match e with
  | Call _ _ => []
  | Yield (YPromise _ r) => [Yield (YPromise 0 r)]
  | _ => [e]
  end.

Definition observe_events (evs : list gevent) : list gevent :=
  flat_map observe_event evs.

Definition observe_gen (g : generator) : generator :=
  MkGen (observe_events (events g)) (completion_of g).

Definition observe (self : JStream) : JStream :=
  MkJStream (observe_gen (jsonIterator self)) (src self) (pMode self) 0.

Definition observe_result (r : iter_result) : iter_result :=
  match r with
  | IterYield (YPromise _ rej) => IterYield (YPromise 0 rej)
  | _ => r
  end.

(** ** Replacers used in the statements *)

(** The replacer is the identity function or a list of keys. *)
Definition identity_or_allowlist (replacer : replacer_arg) : Prop :=
  normalize_replacer replacer = RFn identity_replacer
  \/ exists allow, normalize_replacer replacer = RVal (VArr allow).


Definition quoted (s : string) : string := dquote ++ s ++ dquote.

(** [2 * value].  Operands other than numbers, booleans and [null] are
    taken to give [NaN]: their conversion to a number is outside the
    model. *)
Definition times_two (v : value) : value :=
  match v with
  | VNum z => VNum (2 * z)
  | VNull => VNum 0
  | VBool b => VNum (if b then 2 else 0)
  | _ => VNaN
  end.

(** [(key, value) => key ? 2 * value : value] *)
Definition doubling : option string -> value -> value :=
  fun key value =>
    match key with
    | Some k => if String.eqb k EmptyString then value else times_two value
    | None => value
    end.

(** ** Example values *)

(** An object with a property of its own and a [toJSON] method that
    returns {a:1}. *)
Definition hooked : value :=
  VObj [("x", VNum 1); ("toJSON", VFun (VObj [("a", VNum 1)]))].

(** ** JSON-representable values *)

Fixpoint of_json (j : JSON.json) : value :=
  match j with
  | JSON.JNull => VNull
  | JSON.JBool b => VBool b
  | JSON.JNum z => VNum z
  | JSON.JStr s => VStr s
  | JSON.JArr items => VArr (map of_json items)
  | JSON.JObj props => VObj (map (fun '(key, x) => (key, of_json x)) props)
  end.

(** The object whose only key is an a, a double quote and a b. *)
Definition quote_in_key : JSON.json :=
  JSON.JObj [(("a" ++ dquote ++ "b")%string, JSON.JNum 1)].


Fixpoint depth (j : JSON.json) : nat :=
  match j with
  | JSON.JArr items => S (list_max (map depth items))
  | JSON.JObj props => S (list_max (map (fun '(_, x) => depth x) props))
  | _ => 0
  end.

(** A key that line 137 quotes as [JSON.stringify] does, and that the
    copy of line 112 keeps. *)
Definition plain_key (key : string) : bool :=
  String.eqb (JSON.escape key) key && negb (is_proto_key key).

Fixpoint plain_keys (j : JSON.json) : bool :=
  match j with
  | JSON.JArr items => forallb plain_keys items
  | JSON.JObj props => forallb (fun '(key, x) => plain_key key && plain_keys x) props
  | _ => true
  end.

(** Every number in [j] is a safe integer. *)
Fixpoint safe_numbers (j : JSON.json) : bool :=
  match j with
  | JSON.JNum z => JSON.safe_integer z
  | JSON.JArr items => forallb safe_numbers items
  | JSON.JObj props => forallb (fun '(_, x) => safe_numbers x) props
  | _ => true
  end.

(** The fragments the stream is expected to push for [j]. *)
Fixpoint fragments (j : JSON.json) : list string :=
  match j with
  | JSON.JArr items => "[" :: separated true (map fragments items) ++ ["]"]
  | JSON.JObj props =>
      "{" :: separated true (map (fun '(key, x) => key_fragment key :: fragments x) props)
          ++ ["}"]
  | _ => [JSON.stringify j]
  end.

Definition yields (frags : list string) : generator :=
  MkGen (map (fun s => Yield (YString s)) frags) Returned.

(** ** Key allowlists *)

(** No object of the tree owns a [toJSON] method. *)
Fixpoint hookless (v : value) : bool :=
  match v with
  | VArr items => forallb hookless items
  | VObj props =>
      match get props "toJSON" with VFun _ => false | _ => true end
      && forallb (fun '(_, x) => hookless x) props
  | VFulfils _ x => hookless x
  | VItems items _ => forallb hookless items
  | _ => true
  end.


Definition nested_example : value :=
  VObj [("a", VNum 1);
        ("b", VObj [("a", VNum 2); ("c", VNum 3)]);
        ("c", VNum 4)].

(** ** Timing *)

(** The value with the settling instants of its promises erased. *)
Fixpoint untimed (v : value) : value :=
  match v with
  | VFun ret => VFun (untimed ret)
  | VArr items => VArr (map untimed items)
  | VObj props => VObj (map (fun '(key, x) => (key, untimed x)) props)
  | VFulfils _ x => VFulfils 0 (untimed x)
  | VRejects _ e => VRejects 0 e
  | VItems items failure => VItems (map untimed items) failure
  | _ => v
  end.

(** Two values of the same structure: equal but for the instants at which
    their promises settle. *)
Definition same_structure (v1 v2 : value) : Prop := untimed v1 = untimed v2.

(** A replacer function cannot tell when a promise will settle. *)
Definition timing_blind (replacer : replacer_arg) : Prop :=
  forall f, as_function replacer = Some f ->
  forall key x y, same_structure x y -> same_structure (f key x) (f key y).

Definition same_member (a b : string * value) : Prop :=
  fst a = fst b /\ same_structure (snd a) (snd b).

(** The stream object once it has been read to the end, and the instant
    at which that is. *)
Fixpoint settle (pulses : nat) (self : JStream) : JStream :=
  match pulses with
  | 0 => self
  | S pulses =>
      let (s, self') := _read self in
      if is_data s then settle pulses self' else self'
  end.

Definition elapsed (fuel : nat) (obj : value) (replacer : replacer_arg) : nat :=
  let self := new_JStream fuel obj replacer in
  clock (settle (S (weight self)) self).

(** A slow promise before a fast one, and the same array with both
    promises fast. *)
Definition slow_then_fast : value :=
  VArr [VFulfils 50 (VStr "slow"); VFulfils 1 (VStr "fast")].
Definition both_fast : value :=
  VArr [VFulfils 1 (VStr "slow"); VFulfils 1 (VStr "fast")].

(** ** Runs that come to their end

    Under the identity replacer and under a list of keys, a recursion
    budget above the height of the value is enough: the run is then a
    sequence of chunks closed by the end of output or by an error. *)

Fixpoint height (v : value) : nat :=
  match v with
  | VFun ret => S (height ret)
  | VArr items => S (list_max (map height items))
  | VObj props => S (list_max (map (fun '(_, x) => height x) props))
  | VFulfils _ x => S (height x)
  | VItems items _ => S (list_max (map height items))
  | _ => 0
  end.

(** Values none of whose objects has a member under [proto_key], at any
    depth. *)
Fixpoint ordinary (v : value) : bool :=
  match v with
  | VFun ret => ordinary ret
  | VArr items => forallb ordinary items
  | VObj props => forallb (fun '(key, x) => negb (is_proto_key key) && ordinary x) props
  | VFulfils _ x => ordinary x
  | VItems items _ => forallb ordinary items
  | _ => true
  end.

(** No member under [proto_key] gives the copy another prototype. *)
Definition keeps_prototype (props : list (string * value)) : bool :=
  forallb (fun kx => negb (is_proto_key (fst kx) && changes_prototype (snd kx))) props.

Definition no_proto_key (props : list (string * value)) : bool :=
  forallb (fun kx => negb (is_proto_key (fst kx))) props.

Definition finished (sigs : list signal) : Prop :=
  exists frags s, sigs = map Data frags ++ [s] /\ (s = End \/ exists e, s = Error e).

Definition good_source (s : source) : Prop :=
  match s with
  | ObjectReader _ EndUnknown => False
  | _ => True
  end.

(** Event lists that follow the protocol of the generators.  The flag
    tells whether the next yield is the one the [then] callback of a
    promise pushes. *)
Inductive tidy : bool -> list gevent -> completion -> Prop :=
| tidy_done b : tidy b [] Returned
| tidy_call b k a evs c : tidy b evs c -> tidy b (Call k a :: evs) c
| tidy_string b s evs c : tidy false evs c -> tidy b (Yield (YString s) :: evs) c
| tidy_undefined b evs c : tidy false evs c -> tidy b (Yield YUndefined :: evs) c
| tidy_bind b s f evs c :
    good_source s -> tidy false evs c -> tidy b (SetSrc s :: Yield (YString f) :: evs) c
| tidy_rejects t e evs c :
    tidy false (SetPMode true :: Yield (YPromise t (Some e)) :: evs) c
| tidy_fulfils t evs c :
    tidy true evs c ->
    tidy false (SetPMode true :: Yield (YPromise t None) :: SetPMode false :: evs) c
| tidy_nested t r evs c :
    tidy true (SetPMode true :: Yield (YPromise t r) :: evs) c.

Definition tidy_gen (g : generator) : Prop := tidy false (events g) (completion_of g).

Abbreviation awaited t evs :=
  (SetPMode true :: Yield (YPromise t None) :: SetPMode false :: evs).

(** ** Further vocabulary: escaped text, sequenced runs *)

(** The inside of a JSON string literal: no bare double quote, no control
    character, and every backslash followed by another code unit. *)
Fixpoint well_escaped (s : string) : bool :=
  match s with
  | EmptyString => true
  | String c rest =>
      if Ascii.eqb c backslash_char then
        match rest with
        | EmptyString => false
        | String _ rest' => well_escaped rest'
        end
      else if Ascii.eqb c dquote_char || (nat_of_ascii c <? 32)%nat then false
      else well_escaped rest
  end.

(** The signals [sigs] with the end of output replaced by the signals
    [next]. *)
Fixpoint through (sigs next : list signal) : list signal :=
  match sigs with
  | [] => []
  | End :: _ => next
  | s :: rest => s :: through rest next
  end.

(** Runs one after the other with a comma chunk between two of them,
    followed by [next]; a run that does not reach its end ends the
    whole. *)
Fixpoint chain (runs : list (list signal)) (next : list signal) : list signal :=
  match runs with
  | [] => next
  | r :: rest =>
      match rest with
      | [] => through r next
      | _ => through r (Data "," :: chain rest next)
      end
  end.

(** Event lists as the generators produce them: writes to the stream
    object come with the yield that follows them, a body that returns
    has yielded since the last promise was awaited, and one that stops
    early does not return. *)
Inductive neat : bool -> list gevent -> completion -> Prop :=
| neat_done : neat false [] Returned
| neat_stop b c : c <> Returned -> neat b [] c
| neat_call b k a evs c : neat b evs c -> neat b (Call k a :: evs) c
| neat_string b s evs c : neat false evs c -> neat b (Yield (YString s) :: evs) c
| neat_undefined b evs c : neat false evs c -> neat b (Yield YUndefined :: evs) c
| neat_bind b s f evs c :
    neat false evs c -> neat b (SetSrc s :: Yield (YString f) :: evs) c
| neat_promise b t r evs c :
    (b = false -> r <> None) ->
    neat b (SetPMode true :: Yield (YPromise t r) :: evs) c
| neat_fulfils t evs c : neat true evs c -> neat false (awaited t evs) c.

Definition neat_gen (g : generator) : Prop :=
  forall b, neat b (events g) (completion_of g).

(** Whether the first thing the events push is a plain chunk. *)
Fixpoint starts_plain (evs : list gevent) : bool :=
  match evs with
  | Call _ _ :: rest => starts_plain rest
  | Yield (YString _) :: _ => true
  | Yield YUndefined :: _ => true
  | SetSrc _ :: Yield (YString _) :: _ => true
  | _ => false
  end.

Definition is_promise (v : value) : bool :=
  match v with
  | VFulfils _ _ | VRejects _ _ => true
  | _ => false
  end.

(** Whether [key] passes the replacer when it is a list of keys. *)
Definition allowed (replacer : replacer_arg) (key : string) : bool :=
  match as_array replacer with
  | Some allow => includes allow key
  | None => true
  end.

(** Values whose serialisation never consults the replacer. *)
Fixpoint replacer_free (v : value) : bool :=
  match v with
  | VArr _ | VObj _ | VItems _ _ => false
  | VFulfils _ x => replacer_free x
  | _ => true
  end.

(** Whether [r.map] can be called. *)
Definition mappable (r : value) : bool :=
  match r with
  | VArr _ => true
  | _ => has_map_method r
  end.

(** The number of replacer calls among events. *)
Fixpoint calls_in (evs : list gevent) : nat :=
  match evs with
  | [] => 0
  | Call _ _ :: rest => S (calls_in rest)
  | _ :: rest => calls_in rest
  end.

(** A transform function that returns the number 5 for everything. *)
Definition always_five : option string -> value -> value := fun _ _ => VNum 5.

(* ================================================================== *)
(** * Part III: supporting lemmas *)

(** ** Reading to the end *)

Lemma weight_eq self :
  weight self = events_weight (events (jsonIterator self)) + src_weight (src self).
Proof. reflexivity. Qed.

Lemma next_from_weight evs : forall self r self',
  next_from evs self = (r, self') ->
  weight self' + (match r with IterYield _ => 1 | _ => 0 end)
  <= events_weight evs + src_weight (src self).
Proof.
  induction evs as [|e evs IH]; intros self r self' H; simpl in H.
  - inversion H; subst; clear H. rewrite weight_eq; simpl.
    destruct (completion_of (jsonIterator self)); simpl; lia.
  - destruct e as [k a|b|s|y]; simpl.
    + apply IH in H. lia.
    + apply IH in H. simpl in H. lia.
    + apply IH in H. simpl in H. lia.
    + inversion H; subst; clear H. rewrite weight_eq; simpl. lia.
Qed.

Lemma next_weight self r self' :
  next self = (r, self') ->
  weight self' + (match r with IterYield _ => 1 | _ => 0 end) <= weight self.
Proof. intros H. apply next_from_weight in H. rewrite weight_eq. exact H. Qed.

Lemma read_iterator_weight self s self' :
  read_iterator self = (s, self') -> is_data s = true -> weight self' < weight self.
Proof.
  unfold read_iterator. destruct (next self) as [r self1] eqn:N1.
  apply next_weight in N1.
  destruct r as [y| | |]; try (intros H; inversion H; subst; discriminate).
  destruct y as [c| |t rej].
  - destruct (pMode self1); intros H; inversion H; subst; try discriminate.
    intros _. lia.
  - intros H; inversion H; subst. intros _. lia.
  - destruct (pMode self1).
    + destruct rej as [e|].
      * intros H; inversion H; subst; discriminate.
      * destruct (next (set_clock self1 (Nat.max (clock self1) t))) as [r' self2] eqn:N2.
        apply next_weight in N2.
        change (weight (set_clock self1 (Nat.max (clock self1) t)))
          with (weight self1) in N2.
        intros H; inversion H; subst. intros _. lia.
    + intros H; inversion H; subst; discriminate.
Qed.

Lemma _read_weight self s self' :
  _read self = (s, self') -> is_data s = true -> weight self' < weight self.
Proof.
  unfold _read. destruct self as [it so pm clk]; simpl.
  destruct so as [[[|x chunks] [e|]|[|x frags] [|e|]]|];
    try (intros H; inversion H; subst; simpl; try discriminate; intros _;
         rewrite !weight_eq; simpl; lia);
    try (intros H D; pose proof (read_iterator_weight _ _ _ H D) as W;
         rewrite !weight_eq in *; simpl in *; lia).
Qed.

Lemma flow_enough : forall n m self,
  weight self < n -> weight self < m -> flow n self = flow m self.
Proof.
  induction n as [|n IH]; intros m self Hn Hm; [lia|].
  destruct m as [|m]; [lia|]. simpl.
  destruct (_read self) as [s self'] eqn:R. f_equal.
  destruct (is_data s) eqn:D; [|reflexivity].
  pose proof (_read_weight _ _ _ R D). apply IH; lia.
Qed.

(** [run] does what the readable does: one [_read], and another as long
    as a chunk was pushed. *)
Lemma run_unfold self :
  run self = let (s, self') := _read self in
             s :: (if is_data s then run self' else []).
Proof.
  unfold run at 1. simpl. destruct (_read self) as [s self'] eqn:R.
  f_equal. destruct (is_data s) eqn:D; [|reflexivity].
  pose proof (_read_weight _ _ _ R D). unfold run. apply flow_enough; lia.
Qed.

(** ** One demand pulse at a time *)

Lemma next_from_set_events evs : forall self evs',
  next_from evs (set_events self evs') = next_from evs self.
Proof.
  induction evs as [|e evs IH]; intros [[evs0 c] so pm clk] evs'; simpl.
  - reflexivity.
  - destruct e as [k a|b|s|y]; simpl; try reflexivity;
      try (apply (IH (St evs0 c so pm clk) evs'));
      try (apply (IH (St evs0 c so b clk) evs'));
      try (apply (IH (St evs0 c (Some s) pm clk) evs')).
Qed.

Lemma next_St evs c so pm clk :
  next (St evs c so pm clk) = next_from evs (St [] c so pm clk).
Proof.
  unfold next; simpl.
  symmetry. exact (next_from_set_events evs (St evs c so pm clk) []).
Qed.

Lemma string_app_assoc (a b c : string) : ((a ++ b) ++ c = a ++ b ++ c)%string.
Proof. induction a as [|x a IH]; simpl; [reflexivity|now rewrite IH]. Qed.

Lemma string_app_nil_r (a : string) : (a ++ EmptyString)%string = a.
Proof. induction a as [|x a IH]; simpl; [reflexivity|now rewrite IH]. Qed.

Lemma drop_last_snoc (s : string) (c : ascii) :
  drop_last (s ++ String c EmptyString)%string = s.
Proof.
  induction s as [|x s IH]; simpl; [reflexivity|].
  rewrite IH. destruct s; reflexivity.
Qed.

(** [JSON.stringify(x).slice(1, -1)] is the escaped text without its
    quotes. *)
Lemma slice_quote (x : string) : slice_1_m1 (JSON.quote x) = JSON.escape x.
Proof. unfold JSON.quote, dquote. simpl. apply drop_last_snoc. Qed.

Lemma escape_app (a b : string) :
  JSON.escape (a ++ b)%string = (JSON.escape a ++ JSON.escape b)%string.
Proof.
  induction a as [|x a IH]; simpl; [reflexivity|].
  now rewrite IH, string_app_assoc.
Qed.

Lemma escape_join (chunks : list string) :
  JSON.escape (join chunks) = join (map JSON.escape chunks).
Proof.
  induction chunks as [|x chunks IH]; simpl; [reflexivity|].
  now rewrite escape_app, IH.
Qed.

Lemma run_Call k a evs c pm clk :
  run (St (Call k a :: evs) c None pm clk) = run (St evs c None pm clk).
Proof.
  rewrite (run_unfold (St (Call k a :: evs) c None pm clk)).
  rewrite (run_unfold (St evs c None pm clk)).
  unfold _read, read_iterator; simpl. rewrite !next_St. reflexivity.
Qed.

Lemma run_Yield s evs c clk :
  run (St (Yield (YString s) :: evs) c None false clk)
  = Data s :: run (St evs c None false clk).
Proof. rewrite run_unfold. reflexivity. Qed.

Lemma run_Yield_undefined evs c pm clk :
  run (St (Yield YUndefined :: evs) c None pm clk)
  = Data EmptyString :: run (St evs c None pm clk).
Proof. rewrite run_unfold. reflexivity. Qed.

Lemma run_SetSrc s f evs c clk :
  run (St (SetSrc s :: Yield (YString f) :: evs) c None false clk)
  = Data f :: run (St evs c (Some s) false clk).
Proof. rewrite run_unfold. reflexivity. Qed.

(** A bound text source: its chunks, escaped, then what follows its end,
    or its error. *)
Lemma run_Raw chunks failure evs c pm clk :
  run (St evs c (Some (Raw chunks failure)) pm clk)
  = map (fun x => Data (JSON.escape x)) chunks
    ++ match failure with
       | None => run (St evs c None pm clk)
       | Some e => [Error e]
       end.
Proof.
  induction chunks as [|x chunks IH]; simpl.
  - destruct failure as [e|].
    + reflexivity.
    + rewrite run_unfold.
      rewrite (run_unfold (St evs c None pm clk)). reflexivity.
  - rewrite run_unfold.
    change (_read (St evs c (Some (Raw (x :: chunks) failure)) pm clk))
      with (Data (slice_1_m1 (JSON.quote x)),
            St evs c (Some (Raw chunks failure)) pm clk).
    rewrite slice_quote. cbn [is_data]. now rewrite IH.
Qed.

Lemma run_ObjectReader frags fin evs c pm clk :
  run (St evs c (Some (ObjectReader frags fin)) pm clk)
  = map Data frags
    ++ match fin with
       | Ended => run (St evs c None pm clk)
       | _ => ending_signal fin
       end.
Proof.
  induction frags as [|x frags IH]; simpl.
  - destruct fin as [|e|]; reflexivity.
  - rewrite run_unfold.
    change (_read (St evs c (Some (ObjectReader (x :: frags) fin)) pm clk))
      with (Data x, St evs c (Some (ObjectReader frags fin)) pm clk).
    cbn [is_data]. now rewrite IH.
Qed.

(** A promise that rejects: the error, and nothing after it. *)
Lemma run_rejected t e evs c pm clk :
  run (St (SetPMode true :: Yield (YPromise t (Some e)) :: evs) c None pm clk)
  = [Error e].
Proof. reflexivity. Qed.

(** A promise that fulfils: the [then] callback advances the generator
    and pushes what it yields. *)
Lemma run_fulfilled_string t s evs c pm clk :
  run (St (SetPMode true :: Yield (YPromise t None) :: SetPMode false
           :: Yield (YString s) :: evs) c None pm clk)
  = Data s :: run (St evs c None false (Nat.max clk t)).
Proof. rewrite run_unfold. reflexivity. Qed.

Lemma run_fulfilled_SetSrc t src0 f evs c pm clk :
  run (St (SetPMode true :: Yield (YPromise t None) :: SetPMode false
           :: SetSrc src0 :: Yield (YString f) :: evs) c None pm clk)
  = Data f :: run (St evs c (Some src0) false (Nat.max clk t)).
Proof. rewrite run_unfold. reflexivity. Qed.

(** ** Collected output *)

Lemma join_app (a b : list string) : join (a ++ b) = (join a ++ join b)%string.
Proof.
  induction a as [|x a IH]; simpl; [reflexivity|].
  now rewrite IH, string_app_assoc.
Qed.

Lemma output_app (a b : list signal) : output (a ++ b) = (output a ++ output b)%string.
Proof. unfold output. now rewrite map_app, join_app. Qed.

Lemma output_cons_Data (x : string) (sigs : list signal) :
  output (Data x :: sigs) = (x ++ output sigs)%string.
Proof. reflexivity. Qed.

Lemma output_Data (frags : list string) : output (map Data frags) = join frags.
Proof. unfold output. rewrite map_map. simpl. now rewrite map_id. Qed.

Lemma output_map_Data {A : Type} (f : A -> string) (l : list A) :
  output (map (fun x => Data (f x)) l) = join (map f l).
Proof. unfold output. now rewrite map_map. Qed.

(** ** Sources and promises in the generator *)

Lemma jsonGenerator_VText replacer fuel chunks failure :
  jsonGenerator replacer (S fuel) (VText chunks failure)
  = MkGen [SetSrc (Raw chunks failure); Yield (YString dquote); Yield (YString dquote)]
          Returned.
Proof. reflexivity. Qed.

Lemma join_separated_false (parts : list (list string)) :
  join (separated false parts)
  = match parts with
    | [] => EmptyString
    | _ => ("," ++ JSON.commas (map join parts))%string
    end.
Proof.
  induction parts as [|p rest IH]; [reflexivity|].
  cbn [separated]. rewrite !join_app, IH. cbn [join fold_right map].
  destruct rest as [|q rest].
  - cbn [JSON.commas]. now rewrite !string_app_nil_r.
  - cbn [map JSON.commas]. reflexivity.
Qed.

Lemma join_separated (parts : list (list string)) :
  join (separated true parts) = JSON.commas (map join parts).
Proof.
  destruct parts as [|p rest]; [reflexivity|].
  cbn [separated app]. rewrite join_app, join_separated_false.
  destruct rest as [|q rest]; cbn [map JSON.commas].
  - apply string_app_nil_r.
  - reflexivity.
Qed.

Lemma jsonGenerator_VItems replacer fuel items failure :
  jsonGenerator replacer (S fuel) (VItems items failure)
  = MkGen [SetSrc (new_ObjectReader (jsonGenerator replacer fuel) items failure);
           Yield (YString "["); Yield (YString "]")] Returned.
Proof. reflexivity. Qed.

(** A run is a sequence of chunks, closed by at most one signal of
    another kind. *)
Lemma flow_shape : forall n self,
  exists frags tail,
    flow n self = map Data frags ++ tail
    /\ (tail = [] \/ exists s, tail = [s] /\ is_data s = false).
Proof.
  induction n as [|n IH]; intros self.
  - exists [], []. split; [reflexivity|now left].
  - simpl. destruct (_read self) as [s self'].
    destruct s as [x| | | |]; cbn [is_data].
    + destruct (IH self') as (frags & tail & E & T).
      exists (x :: frags), tail. rewrite E. split; [reflexivity|exact T].
    + exists [], [End]. split; [reflexivity|right; now exists End].
    + exists [], [Error e]. split; [reflexivity|right; now exists (Error e)].
    + exists [], [Uncaught e]. split; [reflexivity|right; now exists (Uncaught e)].
    + exists [], [Cutoff]. split; [reflexivity|right; now exists Cutoff].
Qed.

Lemma not_in_map_Data (s : signal) (frags : list string) :
  is_data s = false -> ~ In s (map Data frags).
Proof.
  intros D H. apply in_map_iff in H. destruct H as (x & E & _).
  subst s. discriminate.
Qed.

Lemma jsonGenerator_VRejects replacer fuel t e :
  jsonGenerator replacer (S fuel) (VRejects t e)
  = MkGen [SetPMode true; Yield (YPromise t (Some e))] Parked.
Proof. reflexivity. Qed.

(** ** What a run depends on *)

Lemma next_from_observe evs : forall c so pm clk,
  next_from (observe_events evs) (St [] c so pm 0)
  = let (r, self') := next_from evs (St [] c so pm clk) in
    (observe_result r, observe self').
Proof.
  induction evs as [|e evs IH]; intros c so pm clk.
  - simpl. destruct c; reflexivity.
  - destruct e as [k a|b|s|y]; cbn [observe_events flat_map observe_event app].
    + apply IH.
    + cbn [next_from]. apply (IH c so b clk).
    + cbn [next_from]. apply (IH c (Some s) pm clk).
    + destruct y as [x| |t rej]; reflexivity.
Qed.

Lemma next_observe self :
  next (observe self)
  = let (r, self') := next self in (observe_result r, observe self').
Proof.
  destruct self as [[evs c] so pm clk]. unfold observe, observe_gen. simpl.
  rewrite !next_St. apply next_from_observe.
Qed.

Lemma push_resumed_observe r : push_resumed (observe_result r) = push_resumed r.
Proof. destruct r as [[x| |t rej]| | |]; reflexivity. Qed.

Lemma read_iterator_observe self :
  read_iterator (observe self)
  = let (s, self') := read_iterator self in (s, observe self').
Proof.
  unfold read_iterator. rewrite next_observe.
  destruct (next self) as [r self1].
  destruct r as [[x| |t rej]| | |]; cbn [observe_result]; try reflexivity.
  - change (pMode (observe self1)) with (pMode self1).
    destruct (pMode self1); reflexivity.
  - change (pMode (observe self1)) with (pMode self1).
    destruct (pMode self1); [|reflexivity].
    destruct rej as [e|]; [reflexivity|].
    change (set_clock (observe self1) (Nat.max (clock (observe self1)) 0))
      with (observe (set_clock self1 (Nat.max (clock self1) t))).
    rewrite next_observe.
    destruct (next (set_clock self1 (Nat.max (clock self1) t))) as [r' self2].
    now rewrite push_resumed_observe.
Qed.

Lemma _read_observe self :
  _read (observe self) = let (s, self') := _read self in (s, observe self').
Proof.
  destruct self as [it so pm clk].
  destruct so as [[[|x chunks] [e|]|[|x frags] [|e|]]|]; try reflexivity;
    apply (read_iterator_observe (MkJStream it None pm clk)).
Qed.

Lemma flow_observe : forall n self, flow n (observe self) = flow n self.
Proof.
  induction n as [|n IH]; intros self; [reflexivity|].
  simpl. rewrite _read_observe. destruct (_read self) as [s self'].
  now rewrite IH.
Qed.

Lemma events_weight_observe evs :
  events_weight (observe_events evs) <= events_weight evs.
Proof.
  induction evs as [|e evs IH]; [simpl; lia|].
  destruct e as [k a|b|s|[x| |t rej]]; simpl; lia.
Qed.

Lemma run_observe self : run (observe self) = run self.
Proof.
  unfold run.
  rewrite (flow_enough (S (weight (observe self))) (S (weight self)) (observe self)).
  - apply flow_observe.
  - lia.
  - rewrite !weight_eq. destruct self as [[evs c] so pm clk]. simpl.
    pose proof (events_weight_observe evs). lia.
Qed.

(** Two generators that differ by their replacer calls and by the
    instants of their promises are read alike. *)
Lemma run_fresh_observe (g1 g2 : generator) :
  observe_gen g1 = observe_gen g2 -> run (fresh g1) = run (fresh g2).
Proof.
  intros H. rewrite <- (run_observe (fresh g1)), <- (run_observe (fresh g2)).
  unfold observe, fresh. simpl. now rewrite H.
Qed.

Lemma observe_events_app a b :
  observe_events (a ++ b) = observe_events a ++ observe_events b.
Proof. unfold observe_events. apply flat_map_app. Qed.

Lemma observe_gen_gseq a b :
  observe_gen (a ;; b) = (observe_gen a ;; observe_gen b).
Proof.
  destruct a as [ea ca], b as [eb cb]. unfold gseq, observe_gen. simpl.
  destruct ca; simpl; try reflexivity. now rewrite observe_events_app.
Qed.

Lemma gseq_skip_l g : (skip ;; g) = g.
Proof. destruct g; reflexivity. Qed.

(** ** Promises resolved with promises *)

Lemma outcome_plain t x : is_promise x = false -> outcome t x = inl (t, x).
Proof. destruct x; try discriminate; reflexivity. Qed.

Lemma outcome_fulfilled x : forall t t' y,
  outcome t x = inl (t', y) ->
  is_promise y = false
  /\ height y <= height x
  /\ (hookless x = true -> hookless y = true)
  /\ (ordinary x = true -> ordinary y = true)
  /\ (replacer_free x = true -> replacer_free y = true).
Proof.
  induction x as [| | | | | |ret IHret|items|props|t0 x IH|t0 e|chunks failure|items failure];
    intros t t' y E; cbn [outcome] in E; try discriminate;
    try (inversion E; subst; repeat split; try reflexivity; try lia; auto; fail).
  destruct (IH _ _ _ E) as (H1 & H2 & H3 & H4 & H5).
  repeat split; try assumption. cbn [height]. lia.
Qed.


Lemma outcome_same x : forall y t1 t2,
  same_structure x y ->
  match outcome t1 x, outcome t2 y with
  | inl (_, a), inl (_, b) => same_structure a b
  | inr (_, e1), inr (_, e2) => e1 = e2
  | _, _ => False
  end.
Proof.
  induction x as [| | | | | |ret IHret|items|props|t0 x IH|t0 e|chunks failure|items failure];
    intros y t1 t2 H; destruct y; try discriminate; cbn [outcome]; try exact H.
  - apply IH. unfold same_structure in *. cbn [untimed] in H. now inversion H.
  - unfold same_structure in H. cbn [untimed] in H. now inversion H.
Qed.

(** ** The identity function and lists of keys, seen from outside *)

Lemma observe_events_mapi_Call {A : Type} (key : nat -> option string)
    (arg : nat -> A -> value) (l : list A) : forall n,
  observe_events (mapi (fun i x => Call (key i) (arg i x)) n l) = [].
Proof. induction l as [|x l IH]; intros n; simpl; [reflexivity|apply IH]. Qed.

Lemma observe_events_map_Call {A : Type} (key : A -> option string)
    (arg : A -> value) (l : list A) :
  observe_events (map (fun x => Call (key x) (arg x)) l) = [].
Proof. induction l as [|x l IH]; simpl; [reflexivity|apply IH]. Qed.

Lemma mapi_ignore_index {A B : Type} (f : A -> B) (l : list A) : forall n,
  mapi (fun _ x => f x) n l = map f l.
Proof. induction l as [|x l IH]; intros n; simpl; [reflexivity|now rewrite IH]. Qed.


(** Seen from outside, [arrayGenerator] under the identity function only
    maps absent elements to [null]. *)
Lemma observe_arrayGenerator_identity rec l :
  observe_gen (arrayGenerator (RFn identity_replacer) rec l)
  = (yield_ "[" ;; observe_gen (elements rec (map nullify l)) ;; yield_ "]").
Proof.
  unfold arrayGenerator. cbn [as_function]. unfold identity_replacer at 1.
  rewrite !observe_gen_gseq.
  change (observe_gen (perform (Call None (VArr l)))) with skip.
  rewrite gseq_skip_l.
  unfold observe_gen at 1. cbn [events completion_of].
  rewrite observe_events_mapi_Call. fold skip. rewrite gseq_skip_l.
  unfold identity_replacer. now rewrite mapi_ignore_index.
Qed.


Lemma assigned_no_proto_key props : no_proto_key props = true -> assigned props = Some props.
Proof.
  induction props as [|[k x] props IH]; [reflexivity|]. cbn [no_proto_key forallb fst].
  intros H. apply andb_prop in H. destruct H as [Hk Hp]. cbn [assigned].
  destruct (is_proto_key k); [discriminate|]. now rewrite (IH Hp).
Qed.

Lemma inherits_stream_no_proto_key allow props :
  no_proto_key props = true -> inherits_stream allow props = false.
Proof.
  induction props as [|[k x] props IH]; [reflexivity|]. cbn [no_proto_key forallb fst].
  intros H. apply andb_prop in H. destruct H as [Hk Hp].
  cbn [inherits_stream existsb fst snd].
  destruct (is_proto_key k); [discriminate|]. exact (IH Hp).
Qed.

Lemma ordinary_no_proto_key props : ordinary (VObj props) = true -> no_proto_key props = true.
Proof.
  cbn [ordinary]. induction props as [|[k x] props IH]; [reflexivity|].
  cbn [forallb no_proto_key fst]. intros H. apply andb_prop in H. destruct H as [H1 H2].
  apply andb_prop in H1. destruct H1 as [Hk _]. rewrite Hk. exact (IH H2).
Qed.

Lemma ordinary_member key x props :
  ordinary (VObj props) = true -> In (key, x) props -> ordinary x = true.
Proof.
  cbn [ordinary]. intros H Hin. rewrite forallb_forall in H.
  specialize (H (key, x) Hin). cbn in H. now apply andb_prop in H.
Qed.

Lemma ordinary_element x items :
  forallb ordinary items = true -> In x items -> ordinary x = true.
Proof. intros H Hin. rewrite forallb_forall in H. now apply H. Qed.

Lemma observe_objectGenerator_identity rec props :
  no_proto_key props = true ->
  observe_gen (objectGenerator (RFn identity_replacer) rec props)
  = (yield_ "{" ;;
     observe_gen (members rec (replace_members identity_replacer props)) ;;
     yield_ "}").
Proof.
  intros Hp. unfold objectGenerator. cbn [as_function]. unfold identity_replacer at 1 2.
  cbn [own_enumerable]. rewrite (assigned_no_proto_key props Hp), !observe_gen_gseq.
  change (observe_gen (perform (Call None (VObj props)))) with skip.
  rewrite gseq_skip_l.
  unfold observe_gen at 2. cbn [events completion_of].
  rewrite (observe_events_map_Call (fun kx => Some (fst kx)) snd).
  fold skip. now rewrite gseq_skip_l.
Qed.









(** ** Transform functions *)

Lemma events_perform e g : events (perform e ;; g) = e :: events g.
Proof. destruct g; reflexivity. Qed.

Lemma events_returned l g : events (MkGen l Returned ;; g) = l ++ events g.
Proof. destruct g; reflexivity. Qed.

Lemma replace_members_flat_map f obj :
  replace_members f obj
  = flat_map (fun kx => if absent (f (Some (fst kx)) (snd kx)) then []
                        else [(fst kx, f (Some (fst kx)) (snd kx))]) obj.
Proof.
  induction obj as [|[k x] obj IH]; simpl; [reflexivity|].
  rewrite IH. now destruct (absent (f (Some k) x)).
Qed.

(** ** Agreement with [JSON.stringify] *)

Lemma yields_app a b : yields (a ++ b) = (yields a ;; yields b).
Proof. unfold yields, gseq. simpl. now rewrite map_app. Qed.

Lemma run_yields frags clk :
  run (St (map (fun s => Yield (YString s)) frags) Returned None false clk)
  = map Data frags ++ [End].
Proof.
  induction frags as [|x frags IH]; [reflexivity|].
  cbn [map app]. now rewrite run_Yield, IH.
Qed.

Lemma run_fresh_yields g frags :
  observe_gen g = yields frags -> run (fresh g) = map Data frags ++ [End].
Proof.
  intros H. rewrite <- (run_observe (fresh g)).
  unfold observe, fresh. cbn [jsonIterator src pMode]. rewrite H.
  apply run_yields.
Qed.

Lemma yields_comma a b : (yields a ;; yield_ "," ;; yields b) = yields (a ++ "," :: b).
Proof. unfold yields, yield_, perform, gseq. simpl. now rewrite map_app. Qed.

Lemma yields_cons x a : (yield_ x ;; yields a) = yields (x :: a).
Proof. reflexivity. Qed.

Lemma observe_elements_yields rec arr : forall parts,
  Forall2 (fun x fr => observe_gen (rec (toJSON x)) = yields fr) arr parts ->
  observe_gen (elements rec arr) = yields (separated true parts).
Proof.
  induction arr as [|x arr IH]; intros parts H; inversion H as [|? fr ? rest Hx Hrest];
    subst; [reflexivity|].
  cbn [elements]. destruct arr as [|y arr].
  - inversion Hrest; subst. rewrite Hx. cbn [separated app]. now rewrite app_nil_r.
  - rewrite !observe_gen_gseq, Hx, (IH rest Hrest).
    change (observe_gen (yield_ ",")) with (yield_ ",").
    rewrite yields_comma. inversion Hrest; subst. reflexivity.
Qed.

Lemma observe_members_yields rec obj : forall groups,
  Forall2 (fun kx group =>
             exists fr, group = key_fragment (fst kx) :: fr
                        /\ observe_gen (rec (toJSON (snd kx))) = yields fr)
          obj groups ->
  observe_gen (members rec obj) = yields (separated true groups).
Proof.
  induction obj as [|[key x] obj IH]; intros groups H;
    inversion H as [|? group ? rest (fr & -> & Hx) Hrest]; subst; [reflexivity|].
  cbn [members]. cbn [fst snd] in Hx. destruct obj as [|[key' y] obj].
  - inversion Hrest; subst. rewrite observe_gen_gseq, Hx.
    change (observe_gen (yield_ (key_fragment key))) with (yield_ (key_fragment key)).
    rewrite yields_cons. cbn [separated app fst]. now rewrite app_nil_r.
  - rewrite !observe_gen_gseq, Hx, (IH rest Hrest).
    change (observe_gen (yield_ ",")) with (yield_ ",").
    change (observe_gen (yield_ (key_fragment key))) with (yield_ (key_fragment key)).
    rewrite yields_comma, yields_cons. inversion Hrest; subst. reflexivity.
Qed.

Lemma Forall2_maps {A B C : Type} (R : B -> C -> Prop) (f : A -> B) (g : A -> C) l :
  (forall a, In a l -> R (f a) (g a)) -> Forall2 R (map f l) (map g l).
Proof.
  induction l as [|a l IH]; intros H; simpl; constructor.
  - apply H. now left.
  - apply IH. intros b Hb. apply H. now right.
Qed.

Lemma in_list_max {A : Type} (f : A -> nat) x l :
  In x l -> f x <= list_max (map f l).
Proof.
  induction l as [|y l IH]; intros H; [destruct H|].
  simpl. destruct H as [->|H]; [lia|]. specialize (IH H). lia.
Qed.

Lemma of_json_present j : absent (of_json j) = false.
Proof. destruct j; reflexivity. Qed.

Lemma nullify_of_json j : nullify (of_json j) = of_json j.
Proof. unfold nullify. now rewrite of_json_present. Qed.

Lemma get_of_json props name :
  absent (get (map (fun '(key, x) => (key, of_json x)) props) name) = false
  \/ get (map (fun '(key, x) => (key, of_json x)) props) name = VUndefined.
Proof.
  induction props as [|[k x] props IH]; simpl; [now right|].
  destruct (String.eqb k name); [left; apply of_json_present|exact IH].
Qed.

Lemma toJSON_of_json j : toJSON (of_json j) = of_json j.
Proof.
  destruct j as [| | | | |props]; try reflexivity.
  cbn [of_json toJSON].
  destruct (get_of_json props "toJSON") as [H|H].
  - destruct (get _ "toJSON"); try reflexivity; discriminate.
  - now rewrite H.
Qed.

Lemma replace_members_identity_of_json props :
  replace_members identity_replacer (map (fun '(key, x) => (key, of_json x)) props)
  = map (fun '(key, x) => (key, of_json x)) props.
Proof.
  induction props as [|[k x] props IH]; simpl; [reflexivity|].
  unfold identity_replacer at 1 2 3. rewrite of_json_present. now rewrite IH.
Qed.

Lemma key_fragment_plain key :
  plain_key key = true -> key_fragment key = (JSON.quote key ++ ":")%string.
Proof.
  unfold plain_key. intros H. apply andb_prop in H. destruct H as [H _].
  apply String.eqb_eq in H.
  unfold key_fragment, JSON.quote. rewrite H.
  now rewrite !string_app_assoc.
Qed.

(** Where no key needs escaping, the stream under the identity replacer
    pushes the fragments of [JSON.stringify]'s text. *)
Lemma jsonGenerator_of_json : forall fuel j,
  plain_keys j = true ->
  depth j < fuel ->
  observe_gen (jsonGenerator (RFn identity_replacer) fuel (of_json j)) = yields (fragments j)
  /\ join (fragments j) = JSON.stringify j.
Proof.
  induction fuel as [|fuel IH]; intros j Hk Hd; [lia|].
  destruct j as [| | | |items|props];
    try (split; [reflexivity|cbn [fragments join fold_right]; apply string_app_nil_r]).
  - (* arrays *)
    assert (Each : forall x, In x items ->
              observe_gen (jsonGenerator (RFn identity_replacer) fuel (of_json x))
              = yields (fragments x)
              /\ join (fragments x) = JSON.stringify x).
    { intros x Hx. apply IH.
      - cbn [plain_keys] in Hk. rewrite forallb_forall in Hk. now apply Hk.
      - cbn [depth] in Hd. pose proof (in_list_max depth x items Hx). lia. }
    split.
    + cbn [of_json jsonGenerator jsonGenerator_body].
      rewrite observe_arrayGenerator_identity.
      rewrite map_map,
        (map_ext (fun x => nullify (of_json x)) of_json nullify_of_json).
      rewrite (observe_elements_yields _ _ (map fragments items)).
      * cbn [fragments].
        change (yield_ "]") with (yields ["]"]). now rewrite <- yields_app, yields_cons.
      * apply Forall2_maps. intros x Hx. rewrite toJSON_of_json.
        now apply Each.
    + cbn [fragments JSON.stringify join fold_right].
      change (fold_right String.append EmptyString) with join.
      rewrite join_app, join_separated, map_map.
      rewrite (map_ext_in _ JSON.stringify) by (intros x Hx; now apply Each).
      cbn [join fold_right]. now rewrite string_app_nil_r.
  - (* objects *)
    assert (Each : forall key x, In (key, x) props ->
              plain_key key = true
              /\ observe_gen (jsonGenerator (RFn identity_replacer) fuel (of_json x))
                 = yields (fragments x)
              /\ join (fragments x) = JSON.stringify x).
    { intros key x Hx. cbn [plain_keys] in Hk. rewrite forallb_forall in Hk.
      specialize (Hk _ Hx). cbn beta iota in Hk. apply andb_prop in Hk.
      destruct Hk as [Hkey Hx']. split; [exact Hkey|]. apply IH; [exact Hx'|].
      cbn [depth] in Hd.
      pose proof (in_list_max (fun '(_, y) => depth y) (key, x) props Hx) as M.
      cbn beta iota in M. lia. }
    assert (Hp : no_proto_key (map (fun '(key, x) => (key, of_json x)) props) = true).
    { unfold no_proto_key. rewrite forallb_forall. intros [k y] Hy.
      apply in_map_iff in Hy. destruct Hy as ([k' x'] & E & Hx).
      destruct (Each k' x' Hx) as [Hkey _]. unfold plain_key in Hkey.
      apply andb_prop in Hkey. inversion E; subst. cbn [fst]. apply Hkey. }
    split.
    + cbn [of_json jsonGenerator jsonGenerator_body].
      rewrite observe_objectGenerator_identity by exact Hp.
      rewrite replace_members_identity_of_json.
      rewrite (observe_members_yields _ _
                 (map (fun '(key, x) => key_fragment key :: fragments x) props)).
      * cbn [fragments].
        change (yield_ "}") with (yields ["}"]). now rewrite <- yields_app, yields_cons.
      * apply Forall2_maps. intros [key x] Hx. cbn [fst snd].
        exists (fragments x). split; [reflexivity|].
        rewrite toJSON_of_json. now apply (Each key x).
    + cbn [fragments JSON.stringify join fold_right].
      change (fold_right String.append EmptyString) with join.
      rewrite join_app, join_separated, map_map.
      rewrite (map_ext_in _ (fun '(key, x) =>
                 (JSON.quote key ++ ":" ++ JSON.stringify x)%string)).
      * cbn [join fold_right]. now rewrite string_app_nil_r.
      * intros [key x] Hx. destruct (Each key x Hx) as (Hkey & _ & Hj).
        cbn [join fold_right].
        change (fold_right String.append EmptyString) with join.
        rewrite Hj, (key_fragment_plain key Hkey). apply string_app_assoc.
Qed.

(** For every JSON-representable value whose keys need no escaping, the
    stream with no replacer pushes the fragments of the text of
    [JSON.stringify] and then signals the end of output. *)
Lemma identity_agrees_with_JSON_stringify : forall fuel j,
  plain_keys j = true ->
  depth j < fuel ->
  serialize fuel (of_json j) no_replacer = map Data (fragments j) ++ [End]
  /\ output (serialize fuel (of_json j) no_replacer) = JSON.stringify j.
Proof.
  intros fuel j Hk Hd.
  destruct (jsonGenerator_of_json fuel j Hk Hd) as [G J].
  assert (R : serialize fuel (of_json j) no_replacer = map Data (fragments j) ++ [End]).
  { unfold serialize, new_JStream. rewrite toJSON_of_json.
    now apply run_fresh_yields. }
  split; [exact R|].
  rewrite R, output_app, output_Data, J. apply string_app_nil_r.
Qed.

(** ** Generators compared member by member *)

Lemma observe_elements_ext rec1 rec2 l1 : forall l2,
  Forall2 (fun x y => observe_gen (rec1 (toJSON x)) = observe_gen (rec2 (toJSON y))) l1 l2 ->
  observe_gen (elements rec1 l1) = observe_gen (elements rec2 l2).
Proof.
  induction l1 as [|x l1 IH]; intros l2 H; inversion H as [|? y ? rest Hx Hrest]; subst;
    [reflexivity|].
  cbn [elements]. destruct l1 as [|x' l1]; inversion Hrest as [|? y' ? rest' ? ?]; subst.
  - exact Hx.
  - rewrite !observe_gen_gseq, Hx. now rewrite (IH _ Hrest).
Qed.

Lemma observe_members_ext rec1 rec2 o1 : forall o2,
  Forall2 (fun kx ky =>
             fst kx = fst ky
             /\ observe_gen (rec1 (toJSON (snd kx))) = observe_gen (rec2 (toJSON (snd ky))))
          o1 o2 ->
  observe_gen (members rec1 o1) = observe_gen (members rec2 o2).
Proof.
  induction o1 as [|[k x] o1 IH]; intros o2 H;
    inversion H as [|? [k2 y] ? rest [Hk Hx] Hrest]; subst; [reflexivity|].
  cbn [fst snd] in Hk, Hx. subst k2. cbn [members].
  destruct o1 as [|[k' x'] o1]; inversion Hrest as [|? [k2' y'] ? rest' ? ?]; subst.
  - now rewrite !observe_gen_gseq, Hx.
  - rewrite !observe_gen_gseq, Hx. now rewrite (IH _ Hrest).
Qed.

Lemma reader_output_ext rec1 rec2 failure items1 : forall items2 first,
  Forall2 (fun x y => run (fresh (rec1 (toJSON (nullify x))))
                      = run (fresh (rec2 (toJSON (nullify y))))) items1 items2 ->
  reader_output rec1 first items1 failure = reader_output rec2 first items2 failure.
Proof.
  induction items1 as [|x items1 IH]; intros items2 first H;
    inversion H as [|? y ? rest Hx Hrest]; subst; [reflexivity|].
  cbn [reader_output]. rewrite Hx, (IH _ false Hrest). reflexivity.
Qed.

(** ** Key allowlists *)







Lemma allowed_members_filter allow props :
  allowed_members allow props
  = filter (fun '(key, x) => includes allow key && negb (absent x)
                             && negb (is_proto_key key)) props.
Proof.
  induction props as [|[k x] props IH]; simpl; [reflexivity|].
  rewrite IH. destruct (absent x), (includes allow k), (is_proto_key k); reflexivity.
Qed.

Lemma ordinary_nullify v : ordinary v = true -> ordinary (nullify v) = true.
Proof. unfold nullify. now destruct (absent v). Qed.

Lemma ordinary_toJSON v : ordinary v = true -> ordinary (toJSON v) = true.
Proof.
  destruct v as [| | | | | | | |props| | | |]; try (intros; assumption).
  intros H. cbn [toJSON].
  assert (G : ordinary (get props "toJSON") = true).
  { cbn [ordinary] in H. induction props as [|[k x] props IH]; [reflexivity|].
    cbn [forallb] in H. apply andb_prop in H. destruct H as [H1 H2].
    apply andb_prop in H1. destruct H1 as [_ H1]. cbn [get].
    destruct (String.eqb k "toJSON"); [exact H1|now apply IH]. }
  destruct (get props "toJSON"); try exact H. exact G.
Qed.



(** ** Timing *)

Lemma same_structure_list l1 : forall l2,
  map untimed l1 = map untimed l2 -> Forall2 same_structure l1 l2.
Proof.
  induction l1 as [|x l1 IH]; intros [|y l2] H; try discriminate; constructor.
  - now inversion H.
  - apply IH. now inversion H.
Qed.

Lemma same_structure_props p1 : forall p2,
  map (fun '(key, x) => (key, untimed x)) p1 = map (fun '(key, x) => (key, untimed x)) p2 ->
  Forall2 same_member p1 p2.
Proof.
  induction p1 as [|[k x] p1 IH]; intros [|[k' y] p2] H; try discriminate; constructor.
  - inversion H. now split.
  - apply IH. now inversion H.
Qed.

Lemma absent_same x y : same_structure x y -> absent x = absent y.
Proof. unfold same_structure. destruct x, y; simpl; intros H; try discriminate; reflexivity. Qed.

Lemma nullify_same x y : same_structure x y -> same_structure (nullify x) (nullify y).
Proof.
  intros H. unfold nullify. rewrite (absent_same x y H).
  now destruct (absent y).
Qed.

Lemma get_same p1 : forall p2 name,
  Forall2 same_member p1 p2 -> same_structure (get p1 name) (get p2 name).
Proof.
  induction p1 as [|[k x] p1 IH]; intros p2 name H;
    inversion H as [|? [k' y] ? rest [Hk Hx] Hrest]; subst; [reflexivity|].
  cbn [fst snd] in Hk, Hx. subst k'. simpl.
  destruct (String.eqb k name); [exact Hx|now apply IH].
Qed.

Lemma toJSON_same x y : same_structure x y -> same_structure (toJSON x) (toJSON y).
Proof.
  intros H.
  destruct x as [| | | | | | | |p1| | | |], y as [| | | | | | | |p2| | | |];
    try discriminate; try exact H.
  assert (P : Forall2 same_member p1 p2).
  { apply same_structure_props. now inversion H. }
  pose proof (get_same p1 p2 "toJSON" P) as G. cbn [toJSON].
  destruct (get p1 "toJSON"), (get p2 "toJSON"); try discriminate; try exact H.
  now inversion G.
Qed.

Lemma has_map_method_same x y :
  same_structure x y -> has_map_method x = has_map_method y.
Proof.
  intros H.
  destruct x as [| | | | | | | |p1| | | |], y as [| | | | | | | |p2| | | |];
    try discriminate; try reflexivity.
  assert (P : Forall2 same_member p1 p2).
  { apply same_structure_props. now inversion H. }
  pose proof (get_same p1 p2 "map" P) as G. cbn [has_map_method].
  destruct (get p1 "map"), (get p2 "map"); try discriminate; reflexivity.
Qed.

Lemma indexed_same l1 : forall l2 n,
  Forall2 same_structure l1 l2 ->
  Forall2 same_member (mapi (fun i x => (index_toString i, x)) n l1)
                      (mapi (fun i x => (index_toString i, x)) n l2).
Proof.
  induction l1 as [|x l1 IH]; intros l2 n H; inversion H; subst; simpl; constructor.
  - now split.
  - now apply IH.
Qed.

Lemma Forall2_diag {A : Type} (R : A -> A -> Prop) (l : list A) :
  (forall x, R x x) -> Forall2 R l l.
Proof. intros H. induction l; constructor; auto. Qed.

Lemma changes_prototype_same x y :
  same_structure x y -> changes_prototype x = changes_prototype y.
Proof. intros H. destruct x, y; try discriminate; reflexivity. Qed.

Lemma is_stream_same x y : same_structure x y -> is_stream x = is_stream y.
Proof. intros H. destruct x, y; try discriminate; reflexivity. Qed.

Lemma assigned_same p1 : forall p2,
  Forall2 same_member p1 p2 ->
  match assigned p1, assigned p2 with
  | Some o1, Some o2 => Forall2 same_member o1 o2
  | None, None => True
  | _, _ => False
  end.
Proof.
  induction p1 as [|[k x] p1 IH]; intros p2 H;
    inversion H as [|? [k' y] ? rest [Hk Hx] Hrest]; subst; [constructor|].
  cbn [fst snd] in Hk, Hx. subst k'. cbn [assigned].
  rewrite (changes_prototype_same _ _ Hx). specialize (IH rest Hrest).
  destruct (is_proto_key k).
  - destruct (changes_prototype y); [exact I|exact IH].
  - destruct (assigned p1), (assigned rest); try exact IH.
    constructor; [now split|exact IH].
Qed.

Lemma inherits_stream_same allow p1 : forall p2,
  Forall2 same_member p1 p2 -> inherits_stream allow p1 = inherits_stream allow p2.
Proof.
  induction p1 as [|[k x] p1 IH]; intros p2 H;
    inversion H as [|? [k' y] ? rest [Hk Hx] Hrest]; subst; [reflexivity|].
  cbn [fst snd] in Hk, Hx. subst k'. cbn [inherits_stream existsb fst snd].
  rewrite (is_stream_same _ _ Hx). f_equal. apply (IH rest Hrest).
Qed.

Lemma own_enumerable_same x y :
  same_structure x y ->
  match own_enumerable x, own_enumerable y with
  | Some o1, Some o2 => Forall2 same_member o1 o2
  | None, None => True
  | _, _ => False
  end.
Proof.
  intros H.
  destruct x as [| | | | |s1| |l1|p1| | | |], y as [| | | | |s2| |l2|p2| | | |];
    try discriminate; cbn [own_enumerable]; try constructor.
  - inversion H; subst. apply Forall2_diag. intros [k v]. now split.
  - apply indexed_same, same_structure_list. now inversion H.
  - apply assigned_same, same_structure_props. now inversion H.
Qed.

Section Blind.

Variable f : option string -> value -> value.
Hypothesis f_blind : forall key x y, same_structure x y -> same_structure (f key x) (f key y).

Lemma mapi_replaced_same l1 : forall l2 n,
  Forall2 same_structure l1 l2 ->
  Forall2 same_structure
    (mapi (fun i x => nullify (f (Some (index_toString i)) x)) n l1)
    (mapi (fun i x => nullify (f (Some (index_toString i)) x)) n l2).
Proof.
  induction l1 as [|x l1 IH]; intros l2 n H; inversion H; subst; simpl; constructor.
  - now apply nullify_same, f_blind.
  - now apply IH.
Qed.

Lemma replace_members_same o1 : forall o2,
  Forall2 same_member o1 o2 ->
  Forall2 same_member (replace_members f o1) (replace_members f o2).
Proof.
  induction o1 as [|[k x] o1 IH]; intros o2 H;
    inversion H as [|? [k' y] ? rest [Hk Hx] Hrest]; subst; [constructor|].
  cbn [fst snd] in Hk, Hx. subst k'. cbn [replace_members].
  pose proof (f_blind (Some k) x y Hx) as Hf.
  rewrite (absent_same _ _ Hf).
  destruct (absent (f (Some k) y)); [now apply IH|].
  constructor; [now split|now apply IH].
Qed.

End Blind.

Lemma allowed_members_same allow p1 : forall p2,
  Forall2 same_member p1 p2 ->
  Forall2 same_member (allowed_members allow p1) (allowed_members allow p2).
Proof.
  induction p1 as [|[k x] p1 IH]; intros p2 H;
    inversion H as [|? [k' y] ? rest [Hk Hx] Hrest]; subst; [constructor|].
  cbn [fst snd] in Hk, Hx. subst k'. cbn [allowed_members].
  rewrite (absent_same _ _ Hx).
  destruct (absent y || negb (includes allow k) || is_proto_key k); [now apply IH|].
  constructor; [now split|now apply IH].
Qed.

Lemma Forall2_map_both {A B : Type} (R : B -> B -> Prop) (S : A -> A -> Prop) (g : A -> B)
    l1 l2 :
  (forall x y, S x y -> R (g x) (g y)) -> Forall2 S l1 l2 -> Forall2 R (map g l1) (map g l2).
Proof. intros H F. induction F; simpl; constructor; auto. Qed.

Lemma Forall2_weaken {A B : Type} (R S : A -> B -> Prop) l1 l2 :
  (forall x y, R x y -> S x y) -> Forall2 R l1 l2 -> Forall2 S l1 l2.
Proof. intros H F. induction F; constructor; auto. Qed.

Lemma observe_call key arg g : observe_gen (perform (Call key arg) ;; g) = observe_gen g.
Proof. destruct g; reflexivity. Qed.

Lemma observe_calls_mapi (a : list value) g :
  observe_gen (MkGen (mapi (fun i x => Call (Some (index_toString i)) x) 0 a) Returned ;; g)
  = observe_gen g.
Proof.
  rewrite observe_gen_gseq. unfold observe_gen at 1. cbn [events completion_of].
  rewrite observe_events_mapi_Call. apply gseq_skip_l.
Qed.

Lemma observe_calls_map (obj : list (string * value)) g :
  observe_gen (MkGen (map (fun kx => Call (Some (fst kx)) (snd kx)) obj) Returned ;; g)
  = observe_gen g.
Proof.
  rewrite observe_gen_gseq. unfold observe_gen at 1. cbn [events completion_of].
  rewrite (observe_events_map_Call (fun kx => Some (fst kx)) snd). apply gseq_skip_l.
Qed.

(** Seen from outside, the generator does the same on two values of the
    same structure. *)
Lemma jsonGenerator_same_structure R :
  timing_blind R ->
  forall fuel v1 v2,
    same_structure v1 v2 ->
    observe_gen (jsonGenerator R fuel v1) = observe_gen (jsonGenerator R fuel v2).
Proof.
  intros HR. induction fuel as [|fuel IH]; intros v1 v2 Hv; [reflexivity|].
  assert (Member : forall x y, same_structure x y ->
            observe_gen (jsonGenerator R fuel (toJSON x))
            = observe_gen (jsonGenerator R fuel (toJSON y))).
  { intros x y Hxy. now apply IH, toJSON_same. }
  assert (Elements : forall l1 l2, Forall2 same_structure l1 l2 ->
            observe_gen (elements (jsonGenerator R fuel) l1)
            = observe_gen (elements (jsonGenerator R fuel) l2)).
  { intros l1 l2 F. apply observe_elements_ext.
    revert F. apply Forall2_weaken. exact Member. }
  assert (Members : forall o1 o2, Forall2 same_member o1 o2 ->
            observe_gen (members (jsonGenerator R fuel) o1)
            = observe_gen (members (jsonGenerator R fuel) o2)).
  { intros o1 o2 F. apply observe_members_ext.
    revert F. apply Forall2_weaken. intros a b [Hk Hx]. split; [exact Hk|].
    now apply Member. }
  destruct v1 as [| | | | | | |l1|p1|t1 x1|t1 e1|c1 f1|i1 f1],
           v2 as [| | | | | | |l2|p2|t2 x2|t2 e2|c2 f2|i2 f2];
    try discriminate; try (inversion Hv; subst; reflexivity); try reflexivity.
  - (* arrays *)
    assert (L : Forall2 same_structure l1 l2).
    { apply same_structure_list. now inversion Hv. }
    cbn [jsonGenerator jsonGenerator_body]. unfold arrayGenerator.
    destruct (as_function R) as [f|] eqn:Ef.
    + pose proof (HR f Ef None _ _ Hv) as Hr.
      rewrite !observe_call.
      pose proof (has_map_method_same _ _ Hr) as Hm.
      destruct (f None (VArr l1)) as [| | | | | | |a1| | | | |],
               (f None (VArr l2)) as [| | | | | | |a2| | | | |];
        try discriminate; try (now rewrite Hm); try reflexivity.
      assert (A : Forall2 same_structure a1 a2).
      { apply same_structure_list. now inversion Hr. }
      rewrite !observe_calls_mapi, !observe_gen_gseq.
      f_equal. f_equal. apply Elements. apply mapi_replaced_same; [|exact A].
      exact (HR f Ef).
    + rewrite !observe_gen_gseq. f_equal. f_equal. apply Elements.
      revert L. apply Forall2_map_both. exact nullify_same.
  - (* objects *)
    assert (P : Forall2 same_member p1 p2).
    { apply same_structure_props. now inversion Hv. }
    cbn [jsonGenerator jsonGenerator_body]. unfold objectGenerator.
    rewrite !(observe_gen_gseq (yield_ "{")). f_equal.
    destruct (as_function R) as [f|] eqn:Ef.
    + pose proof (HR f Ef None _ _ Hv) as Hr.
      rewrite !observe_call.
      pose proof (own_enumerable_same _ _ Hr) as Ho.
      destruct (own_enumerable (f None (VObj p1))) as [o1|],
               (own_enumerable (f None (VObj p2))) as [o2|];
        try contradiction; [|reflexivity].
      rewrite !observe_calls_map, !observe_gen_gseq. f_equal. apply Members.
      apply replace_members_same; [exact (HR f Ef)|exact Ho].
    + destruct (as_array R) as [allow|]; [|reflexivity].
      rewrite (inherits_stream_same allow p1 p2 P).
      destruct (inherits_stream allow p2); [reflexivity|].
      rewrite !observe_gen_gseq. f_equal. apply Members.
      now apply allowed_members_same.
  - (* promises that fulfil *)
    cbn [jsonGenerator jsonGenerator_body].
    assert (Hx : same_structure x1 x2) by now inversion Hv.
    pose proof (outcome_same x1 x2 t1 t2 Hx) as O.
    destruct (outcome t1 x1) as [[a1 y1]|[a1 r1]], (outcome t2 x2) as [[a2 y2]|[a2 r2]];
      try contradiction.
    + rewrite !observe_gen_gseq. do 3 f_equal. now apply IH.
    + subst. reflexivity.
  - (* item sources *)
    assert (I : Forall2 same_structure i1 i2).
    { apply same_structure_list. now inversion Hv. }
    assert (f1 = f2) by now inversion Hv. subst f2.
    cbn [jsonGenerator jsonGenerator_body]. rewrite !observe_gen_gseq.
    f_equal. unfold new_ObjectReader.
    rewrite (reader_output_ext (jsonGenerator R fuel) (jsonGenerator R fuel) f1 i1 i2 true);
      [reflexivity|].
    revert I. apply Forall2_weaken. intros x y Hxy.
    apply run_fresh_observe, Member. now apply nullify_same.
Qed.

Lemma timing_blind_value (r : value) : timing_blind (RVal r).
Proof.
  intros f Hf key x y _. destruct r; try discriminate.
  inversion Hf; subst. reflexivity.
Qed.

Lemma timing_blind_normalize replacer :
  timing_blind replacer -> timing_blind (normalize_replacer replacer).
Proof.
  intros H. unfold normalize_replacer.
  destruct (falsy_replacer replacer
            || negb (is_some (as_function replacer)) && negb (is_some (as_array replacer)));
    [|exact H].
  intros f Hf key x y Hxy. inversion Hf; subst. exact Hxy.
Qed.

(** ** Runs that come to their end *)

Lemma finished_cons x sigs : finished sigs -> finished (Data x :: sigs).
Proof.
  intros (frags & s & E & H). exists (x :: frags), s. split; [|exact H].
  now rewrite E.
Qed.

Lemma finished_app l sigs : finished sigs -> finished (map Data l ++ sigs).
Proof.
  intros H. induction l as [|x l IH]; [exact H|]. simpl. now apply finished_cons.
Qed.

Lemma finished_End : finished [End].
Proof. exists [], End. split; [reflexivity|now left]. Qed.

Lemma finished_Error e : finished [Error e].
Proof. exists [], (Error e). split; [reflexivity|right; now exists e]. Qed.

Lemma finished_last sigs :
  finished sigs -> last sigs Cutoff = End \/ exists e, last sigs Cutoff = Error e.
Proof.
  intros (frags & s & E & H). subst sigs. rewrite last_last. exact H.
Qed.

Lemma run_fulfilled_Call t k a evs c pm clk :
  run (St (awaited t (Call k a :: evs)) c None pm clk)
  = run (St (awaited t evs) c None pm clk).
Proof.
  rewrite (run_unfold (St (awaited t (Call k a :: evs)) c None pm clk)).
  rewrite (run_unfold (St (awaited t evs) c None pm clk)).
  unfold _read, read_iterator; simpl.
  cbv [set_clock set_events set_pMode jsonIterator src pMode clock completion_of events].
  rewrite !next_St. reflexivity.
Qed.

Lemma run_fulfilled_undefined t evs c pm clk :
  run (St (awaited t (Yield YUndefined :: evs)) c None pm clk)
  = Data EmptyString :: run (St evs c None false (Nat.max clk t)).
Proof. rewrite run_unfold. reflexivity. Qed.

Lemma run_bound s evs c pm clk :
  good_source s ->
  (forall clk', finished (run (St evs c None pm clk'))) ->
  finished (run (St evs c (Some s) pm clk)).
Proof.
  intros G H. destruct s as [chunks failure|frags fin].
  - rewrite run_Raw. rewrite <- (map_map JSON.escape Data). apply finished_app.
    destruct failure as [e|]; [apply finished_Error|apply H].
  - rewrite run_ObjectReader. apply finished_app.
    destruct fin as [|e|]; [apply H|apply finished_Error|destruct G].
Qed.

Lemma run_tidy b evs c :
  tidy b evs c ->
  forall clk,
    (b = false -> finished (run (St evs c None false clk)))
    /\ (b = true -> forall t pm, finished (run (St (awaited t evs) c None pm clk))).
Proof.
  induction 1 as [b|b k a evs c H IH|b s evs c H IH|b evs c H IH|b s f evs c G H IH
                  |t e evs c|t evs c H IH|t r evs c]; intros clk.
  - split; intros _; [apply finished_End|].
    intros t pm. exists [EmptyString], End. split; [reflexivity|now left].
  - destruct (IH clk) as [IH0 IH1]. split; intros Hb.
    + rewrite run_Call. now apply IH0.
    + intros t pm. rewrite run_fulfilled_Call. now apply IH1.
  - split; intros _.
    + rewrite run_Yield. apply finished_cons. now apply IH.
    + intros t pm. rewrite run_fulfilled_string. apply finished_cons. now apply IH.
  - split; intros _.
    + rewrite run_Yield_undefined. apply finished_cons. now apply IH.
    + intros t pm. rewrite run_fulfilled_undefined. apply finished_cons. now apply IH.
  - split; intros _.
    + rewrite run_SetSrc. apply finished_cons. apply run_bound; [exact G|].
      intros clk'. now apply IH.
    + intros t pm. rewrite run_fulfilled_SetSrc. apply finished_cons.
      apply run_bound; [exact G|]. intros clk'. now apply IH.
  - split; [intros _|discriminate]. apply finished_Error.
  - split; [intros _|discriminate]. now apply IH.
  - split; [discriminate|intros _ t' pm]. apply finished_Error.
Qed.

Lemma tidy_resumable evs c : tidy false evs c -> tidy true evs c.
Proof.
  intros H. remember false as b eqn:Eb. revert Eb.
  induction H; intros Eb; try discriminate; subst.
  - constructor.
  - constructor. now apply IHtidy.
  - now constructor.
  - now constructor.
  - now constructor.
  - constructor.
  - constructor.
Qed.

Lemma tidy_app b evs1 c1 :
  tidy b evs1 c1 -> c1 = Returned ->
  forall evs2 c, tidy false evs2 c -> tidy b (evs1 ++ evs2) c.
Proof.
  induction 1; intros Ec evs2 c2 H2; subst; cbn [app].
  - destruct b; [now apply tidy_resumable|exact H2].
  - constructor. now apply IHtidy.
  - constructor. now apply IHtidy.
  - constructor. now apply IHtidy.
  - constructor; [assumption|]. now apply IHtidy.
  - constructor.
  - constructor. now apply IHtidy.
  - constructor.
Qed.

Lemma tidy_gseq a b : tidy_gen a -> tidy_gen b -> tidy_gen (a ;; b).
Proof.
  unfold tidy_gen, gseq. destruct a as [ea ca]. cbn [events completion_of].
  intros Ha Hb. destruct ca; cbn [events completion_of]; try exact Ha.
  now apply (tidy_app false ea Returned).
Qed.

Lemma tidy_yield s : tidy_gen (yield_ s).
Proof. repeat constructor. Qed.

Lemma tidy_skip : tidy_gen skip.
Proof. constructor. Qed.

Lemma tidy_calls_mapi (a : list value) : forall n,
  tidy false (mapi (fun i x => Call (Some (index_toString i)) x) n a) Returned.
Proof. induction a as [|x a IH]; intros n; simpl; constructor. apply IH. Qed.

Lemma tidy_calls_map (obj : list (string * value)) :
  tidy false (map (fun kx => Call (Some (fst kx)) (snd kx)) obj) Returned.
Proof. induction obj as [|x obj IH]; simpl; constructor. apply IH. Qed.

Lemma tidy_elements rec arr :
  (forall x, In x arr -> tidy_gen (rec (toJSON x))) -> tidy_gen (elements rec arr).
Proof.
  induction arr as [|x arr IH]; intros H; [apply tidy_skip|].
  cbn [elements]. destruct arr as [|y arr].
  - apply H. now left.
  - apply tidy_gseq; [apply H; now left|].
    apply tidy_gseq; [apply tidy_yield|]. apply IH. intros z Hz. apply H. now right.
Qed.

Lemma tidy_members rec obj :
  (forall key x, In (key, x) obj -> tidy_gen (rec (toJSON x))) ->
  tidy_gen (members rec obj).
Proof.
  induction obj as [|[key x] obj IH]; intros H; [apply tidy_skip|].
  cbn [members]. destruct obj as [|[key' y] obj].
  - apply tidy_gseq; [apply tidy_yield|]. apply (H key x). now left.
  - apply tidy_gseq; [apply tidy_yield|].
    apply tidy_gseq; [apply (H key x); now left|].
    apply tidy_gseq; [apply tidy_yield|]. apply IH.
    intros k z Hz. apply (H k z). now right.
Qed.

Lemma height_nullify v : height (nullify v) <= height v.
Proof. unfold nullify. destruct (absent v); simpl; lia. Qed.

Lemma height_get props name :
  height (get props name) <= list_max (map (fun '(_, x) => height x) props).
Proof.
  induction props as [|[k x] props IH]; simpl; [lia|].
  destruct (String.eqb k name); lia.
Qed.

Lemma height_toJSON v : height (toJSON v) <= height v.
Proof.
  destruct v as [| | | | | | | |props| | | |]; simpl; try lia.
  pose proof (height_get props "toJSON") as H.
  destruct (get props "toJSON"); simpl in *; lia.
Qed.

Lemma replace_members_identity_In key x props :
  In (key, x) (replace_members identity_replacer props) -> In (key, x) props.
Proof.
  induction props as [|[k y] props IH]; simpl; [tauto|].
  unfold identity_replacer at 1 2. destruct (absent y); simpl; tauto.
Qed.

Lemma allowed_members_In allow key x props :
  In (key, x) (allowed_members allow props) -> In (key, x) props.
Proof.
  induction props as [|[k y] props IH]; simpl; [tauto|].
  destruct (absent y || negb (includes allow k) || is_proto_key k); simpl; tauto.
Qed.

Lemma reader_output_good rec failure items : forall first,
  (forall item, In item items -> finished (run (fresh (rec (toJSON (nullify item)))))) ->
  good_source (let (frags, fin) := reader_output rec first items failure in
               ObjectReader frags fin).
Proof.
  induction items as [|item items IH]; intros first H.
  - simpl. now destruct failure.
  - cbn [reader_output].
    destruct (finished_last _ (H item (or_introl eq_refl))) as [E|[e E]]; rewrite E.
    + specialize (IH false (fun i Hi => H i (or_intror Hi))).
      destruct (reader_output rec false items failure) as [more fin]. exact IH.
    + exact I.
Qed.

(** Under the identity function and under a list of keys, a generator
    with a budget above the height of its value follows the protocol,
    when the value is ordinary. *)
Lemma jsonGenerator_tidy R :
  R = RFn identity_replacer \/ (exists allow, R = RVal (VArr allow)) ->
  forall fuel v, height v < fuel -> ordinary v = true -> tidy_gen (jsonGenerator R fuel v).
Proof.
  intros HR. induction fuel as [|fuel IH]; intros v Hv Ho; [lia|].
  assert (Element : forall x items, In x items -> list_max (map height items) < fuel ->
            forallb ordinary items = true ->
            tidy_gen (jsonGenerator R fuel (toJSON (nullify x)))).
  { intros x items Hx Hm Hi. apply IH.
    - pose proof (height_toJSON (nullify x)). pose proof (height_nullify x).
      pose proof (in_list_max height x items Hx). lia.
    - apply ordinary_toJSON, ordinary_nullify. now apply (ordinary_element x items). }
  assert (Member : forall (key : string) x props, In (key, x) props ->
            list_max (map (fun '((_, y) : string * value) => height y) props) < fuel ->
            ordinary (VObj props) = true ->
            tidy_gen (jsonGenerator R fuel (toJSON x))).
  { intros key x props Hx Hm Hp. apply IH.
    - pose proof (height_toJSON x).
      pose proof (in_list_max (fun '((_, y) : string * value) => height y)
                    (key, x) props Hx) as M.
      cbn beta iota in M. lia.
    - apply ordinary_toJSON. now apply (ordinary_member key x props). }
  destruct v as [| | | | | | |items|props|t x|t e|chunks failure|items failure];
    try (repeat constructor; fail).
  (* leaves, rejected promises and text sources are done *)
  - (* arrays *)
    cbn [height] in Hv. cbn [ordinary] in Ho.
    cbn [jsonGenerator jsonGenerator_body]. unfold arrayGenerator.
    assert (Loop : tidy_gen (yield_ "[" ;;
                             elements (jsonGenerator R fuel) (map nullify items) ;;
                             yield_ "]")).
    { apply tidy_gseq; [apply tidy_yield|]. apply tidy_gseq; [|apply tidy_yield].
      apply tidy_elements. intros x Hx. apply in_map_iff in Hx.
      destruct Hx as (y & <- & Hy). apply (Element y items Hy); [lia|exact Ho]. }
    destruct HR as [->|[allow ->]]; cbn [as_function]; [|exact Loop].
    unfold identity_replacer at 1.
    apply tidy_gseq; [repeat constructor|].
    apply tidy_gseq; [apply tidy_calls_mapi|].
    unfold identity_replacer. now rewrite mapi_ignore_index.
  - (* objects *)
    cbn [height] in Hv. pose proof (ordinary_no_proto_key props Ho) as Hp.
    cbn [jsonGenerator jsonGenerator_body]. unfold objectGenerator.
    apply tidy_gseq; [apply tidy_yield|].
    destruct HR as [->|[allow ->]]; cbn [as_function as_array].
    + unfold identity_replacer at 1 2. cbn [own_enumerable].
      rewrite (assigned_no_proto_key props Hp).
      apply tidy_gseq; [repeat constructor|].
      apply tidy_gseq; [apply tidy_calls_map|].
      apply tidy_gseq; [|apply tidy_yield]. apply tidy_members.
      intros key x Hx. apply replace_members_identity_In in Hx.
      apply (Member key x props Hx); [lia|exact Ho].
    + rewrite (inherits_stream_no_proto_key allow props Hp).
      apply tidy_gseq; [|apply tidy_yield]. apply tidy_members.
      intros key x Hx. apply allowed_members_In in Hx.
      apply (Member key x props Hx); [lia|exact Ho].
  - (* a promise that fulfils *)
    cbn [height] in Hv. cbn [ordinary] in Ho. cbn [jsonGenerator jsonGenerator_body].
    destruct (outcome t x) as [[t' y]|[t' e]] eqn:E; [|repeat constructor].
    destruct (outcome_fulfilled x _ _ _ E) as (_ & H2 & _ & H4 & _).
    assert (Hx : tidy_gen (jsonGenerator R fuel y)) by (apply IH; [lia|now apply H4]).
    unfold tidy_gen in *. destruct (jsonGenerator R fuel y) as [evs c].
    cbn [events completion_of] in *. unfold gseq, perform. cbn [events completion_of app].
    apply tidy_fulfils. now apply tidy_resumable.
  - (* an item source *)
    cbn [height] in Hv. cbn [ordinary] in Ho. cbn [jsonGenerator jsonGenerator_body].
    unfold tidy_gen, gseq, perform, yield_. cbn [events completion_of app].
    apply tidy_bind; [|repeat constructor].
    unfold new_ObjectReader. apply reader_output_good.
    intros item Hitem.
    destruct (run_tidy false _ _ (Element item items Hitem ltac:(lia) Ho) 0) as [F _].
    specialize (F eq_refl).
    unfold fresh. destruct (jsonGenerator R fuel (toJSON (nullify item))); exact F.
Qed.

(** With a recursion budget above the height of an ordinary root, the
    serialisation under the identity replacer or under a list of keys is a
    sequence of chunks closed by the end of output or by an error. *)
Lemma serialize_finishes fuel root replacer :
  identity_or_allowlist replacer ->
  height root < fuel ->
  ordinary root = true ->
  finished (serialize fuel root replacer).
Proof.
  intros HR Hh Ho. unfold serialize, new_JStream.
  assert (T : tidy_gen (jsonGenerator (normalize_replacer replacer) fuel (toJSON root))).
  { apply jsonGenerator_tidy; [exact HR| |now apply ordinary_toJSON].
    pose proof (height_toJSON root). lia. }
  destruct (run_tidy false _ _ T 0) as [F _]. specialize (F eq_refl).
  unfold fresh. destruct (jsonGenerator _ fuel (toJSON root)); exact F.
Qed.

(** ** Unfolding the generators *)

Lemma gseq_perform e g : (perform e ;; g) = MkGen (e :: events g) (completion_of g).
Proof. destruct g; reflexivity. Qed.

Lemma gseq_returned l g :
  (MkGen l Returned ;; g) = MkGen (l ++ events g) (completion_of g).
Proof. destruct g; reflexivity. Qed.

Lemma jsonGenerator_fulfils R fuel t x t' y :
  outcome t x = inl (t', y) ->
  jsonGenerator R (S fuel) (VFulfils t x)
  = MkGen (awaited t' (events (jsonGenerator R fuel y)))
          (completion_of (jsonGenerator R fuel y)).
Proof.
  intros E. cbn [jsonGenerator jsonGenerator_body]. rewrite E.
  now rewrite !gseq_perform.
Qed.

Lemma jsonGenerator_adopts_rejection R fuel t x t' e :
  outcome t x = inr (t', e) ->
  jsonGenerator R (S fuel) (VFulfils t x)
  = MkGen [SetPMode true; Yield (YPromise t' (Some e))] Parked.
Proof. intros E. cbn [jsonGenerator jsonGenerator_body]. now rewrite E. Qed.

Lemma jsonGenerator_VFulfils R fuel t x :
  is_promise x = false ->
  jsonGenerator R (S fuel) (VFulfils t x)
  = MkGen (awaited t (events (jsonGenerator R fuel x)))
          (completion_of (jsonGenerator R fuel x)).
Proof. intros H. apply jsonGenerator_fulfils. now apply outcome_plain. Qed.

Lemma run_fresh (g : generator) :
  run (fresh g) = run (St (events g) (completion_of g) None false 0).
Proof. destruct g; reflexivity. Qed.

Lemma jsonGenerator_S R fuel v :
  jsonGenerator R (S fuel) v = jsonGenerator_body R (jsonGenerator R fuel) v.
Proof. reflexivity. Qed.

(** ** One piece of a generator after another *)

Lemma run_clock evs c s pm clk :
  run (St evs c s pm clk) = run (St evs c s pm 0).
Proof.
  rewrite <- (run_observe (St evs c s pm clk)), <- (run_observe (St evs c s pm 0)).
  reflexivity.
Qed.

Lemma through_Data frags sigs next :
  through (map Data frags ++ sigs) next = map Data frags ++ through sigs next.
Proof. induction frags as [|x frags IH]; [reflexivity|]. simpl. now rewrite IH. Qed.

(** What a neat piece of generator pushes does not depend on what follows
    it; what follows takes the place of the end of output. *)
Lemma run_neat b evs c1 :
  neat b evs c1 -> c1 = Returned ->
  forall rest c clk,
    (b = false ->
       run (St (evs ++ rest) c None false clk)
       = through (run (St evs c1 None false clk)) (run (St rest c None false 0)))
    /\ (b = true -> forall t pm,
       run (St (awaited t (evs ++ rest)) c None pm clk)
       = through (run (St (awaited t evs) c1 None pm clk)) (run (St rest c None false 0))).
Proof.
  induction 1 as [|b c1 Hc|b k a evs c1 H IH|b s evs c1 H IH|b evs c1 H IH
                  |b s f evs c1 H IH|b t r evs c1 Hr|t evs c1 H IH];
    intros Ec rest c clk.
  - split; [intros _|discriminate]. cbn [app]. rewrite (run_clock rest). reflexivity.
  - now destruct Hc.
  - destruct (IH Ec rest c clk) as [IH0 IH1]. split; intros Hb.
    + cbn [app]. rewrite !run_Call. now apply IH0.
    + intros t' pm. cbn [app]. rewrite !run_fulfilled_Call. now apply IH1.
  - split; intros _.
    + cbn [app]. rewrite !run_Yield. cbn [through]. f_equal. now apply IH.
    + intros t' pm. cbn [app]. rewrite !run_fulfilled_string. cbn [through]. f_equal.
      now apply IH.
  - split; intros _.
    + cbn [app]. rewrite !run_Yield_undefined. cbn [through]. f_equal. now apply IH.
    + intros t' pm. cbn [app]. rewrite !run_fulfilled_undefined. cbn [through]. f_equal.
      now apply IH.
  - assert (B : forall clk',
              run (St (evs ++ rest) c (Some s) false clk')
              = through (run (St evs c1 (Some s) false clk'))
                        (run (St rest c None false 0))).
    { intros clk'. destruct s as [chunks failure|frags fin].
      - rewrite !run_Raw, <- (map_map JSON.escape Data), through_Data.
        destruct failure as [e|]; [reflexivity|]. f_equal. now apply IH.
      - rewrite !run_ObjectReader, through_Data.
        destruct fin as [|e|]; [|reflexivity|reflexivity]. f_equal. now apply IH. }
    split; intros _.
    + cbn [app]. rewrite !run_SetSrc. cbn [through]. f_equal. apply B.
    + intros t' pm. cbn [app]. rewrite !run_fulfilled_SetSrc. cbn [through]. f_equal.
      apply B.
  - split; intros Hb.
    + destruct r as [e|]; [|now destruct (Hr Hb)]. reflexivity.
    + intros t' pm. reflexivity.
  - split; [intros _|discriminate]. now apply IH.
Qed.

(** A run that does not come from the end of the body has no end of
    output in it. *)
Lemma run_neat_unfinished b evs c1 :
  neat b evs c1 -> c1 <> Returned ->
  forall next clk,
    (b = false ->
       through (run (St evs c1 None false clk)) next = run (St evs c1 None false clk))
    /\ (b = true -> forall t pm,
       through (run (St (awaited t evs) c1 None pm clk)) next
       = run (St (awaited t evs) c1 None pm clk)).
Proof.
  induction 1 as [|b c1 Hc|b k a evs c1 H IH|b s evs c1 H IH|b evs c1 H IH
                  |b s f evs c1 H IH|b t r evs c1 Hr|t evs c1 H IH];
    intros Hc' next clk.
  - now destruct Hc'.
  - split; [intros _|intros _ t pm]; destruct c1; try reflexivity; now destruct Hc.
  - destruct (IH Hc' next clk) as [IH0 IH1]. split; intros Hb.
    + rewrite !run_Call. now apply IH0.
    + intros t' pm. rewrite !run_fulfilled_Call. now apply IH1.
  - split; intros _.
    + rewrite !run_Yield. cbn [through]. f_equal. now apply IH.
    + intros t' pm. rewrite !run_fulfilled_string. cbn [through]. f_equal. now apply IH.
  - split; intros _.
    + rewrite !run_Yield_undefined. cbn [through]. f_equal. now apply IH.
    + intros t' pm. rewrite !run_fulfilled_undefined. cbn [through]. f_equal.
      now apply IH.
  - assert (B : forall clk',
              through (run (St evs c1 (Some s) false clk')) next
              = run (St evs c1 (Some s) false clk')).
    { intros clk'. destruct s as [chunks failure|frags fin].
      - rewrite !run_Raw, <- (map_map JSON.escape Data), through_Data.
        destruct failure as [e|]; [reflexivity|]. f_equal. now apply IH.
      - rewrite !run_ObjectReader, through_Data.
        destruct fin as [|e|]; [|reflexivity|reflexivity]. f_equal. now apply IH. }
    split; intros _.
    + rewrite !run_SetSrc. cbn [through]. f_equal. apply B.
    + intros t' pm. rewrite !run_fulfilled_SetSrc. cbn [through]. f_equal. apply B.
  - split; intros Hb.
    + destruct r as [e|]; [|now destruct (Hr Hb)]. reflexivity.
    + intros t' pm. reflexivity.
  - split; [intros _|discriminate]. now apply IH.
Qed.

(** The run of two pieces in sequence: the run of the first, and the run
    of the second in the place of its end of output. *)
Lemma run_gseq a k :
  neat false (events a) (completion_of a) ->
  run (fresh (a ;; k)) = through (run (fresh a)) (run (fresh k)).
Proof.
  intros N. rewrite !run_fresh. destruct a as [evs c1]. cbn [events completion_of] in *.
  unfold gseq. cbn [events completion_of].
  destruct c1; cbn [events completion_of];
    try (symmetry; apply (run_neat_unfinished false evs _ N); [discriminate|reflexivity]).
  now apply (run_neat false evs Returned N).
Qed.

Lemma gseq_assoc a b c : ((a ;; b) ;; c) = (a ;; (b ;; c)).
Proof.
  destruct a as [ea ca], b as [eb cb], c as [ec cc]. unfold gseq. simpl.
  destruct ca; simpl; try reflexivity.
  destruct cb; simpl; try reflexivity. now rewrite app_assoc.
Qed.

Lemma run_fresh_yield s g : run (fresh (yield_ s ;; g)) = Data s :: run (fresh g).
Proof.
  unfold yield_. rewrite gseq_perform, !run_fresh. cbn [events completion_of].
  apply run_Yield.
Qed.

Lemma run_elements rec arr :
  (forall x, In x arr -> neat false (events (rec (toJSON x))) (completion_of (rec (toJSON x)))) ->
  forall k,
    run (fresh (elements rec arr ;; k))
    = chain (map (fun x => run (fresh (rec (toJSON x)))) arr) (run (fresh k)).
Proof.
  induction arr as [|x arr IH]; intros H k.
  - cbn [elements map chain]. now rewrite gseq_skip_l.
  - cbn [elements]. destruct arr as [|y arr].
    + cbn [map chain]. apply run_gseq. apply H. now left.
    + rewrite !gseq_assoc, run_gseq by (apply H; now left).
      rewrite run_fresh_yield, IH by (intros z Hz; apply H; now right).
      reflexivity.
Qed.

Lemma run_members rec obj :
  (forall key x, In (key, x) obj ->
     neat false (events (rec (toJSON x))) (completion_of (rec (toJSON x)))) ->
  forall k,
    run (fresh (members rec obj ;; k))
    = chain (map (fun kx => Data (key_fragment (fst kx)) :: run (fresh (rec (toJSON (snd kx)))))
                 obj)
            (run (fresh k)).
Proof.
  induction obj as [|[key x] obj IH]; intros H k.
  - cbn [members map chain]. now rewrite gseq_skip_l.
  - cbn [members]. destruct obj as [|[key' y] obj].
    + cbn [map chain fst snd through]. rewrite gseq_assoc, run_fresh_yield.
      f_equal. apply run_gseq. apply (H key x). now left.
    + rewrite !gseq_assoc, run_fresh_yield, run_gseq by (apply (H key x); now left).
      rewrite run_fresh_yield, IH by (intros k' z Hz; apply (H k' z); now right).
      reflexivity.
Qed.

(** ** Every generator is neat *)

Lemma neat_app b evs1 c1 :
  neat b evs1 c1 -> c1 = Returned ->
  forall evs2 c, neat false evs2 c -> neat b (evs1 ++ evs2) c.
Proof.
  induction 1 as [|b c1 Hc|b k a evs c1 H IH|b s evs c1 H IH|b evs c1 H IH
                  |b s f evs c1 H IH|b t r evs c1 Hr|t evs c1 H IH];
    intros Ec evs2 c H2; cbn [app].
  - exact H2.
  - now destruct Hc.
  - constructor. now apply IH.
  - constructor. now apply IH.
  - constructor. now apply IH.
  - constructor. now apply IH.
  - now constructor.
  - apply neat_fulfils. now apply IH.
Qed.

Lemma neat_gseq b a k :
  neat b (events a) (completion_of a) ->
  neat false (events k) (completion_of k) ->
  neat b (events (a ;; k)) (completion_of (a ;; k)).
Proof.
  destruct a as [ea ca], k as [ek ck]. unfold gseq. cbn [events completion_of].
  intros Ha Hk. destruct ca; cbn [events completion_of]; try exact Ha.
  now apply (neat_app b ea Returned).
Qed.

Lemma neat_yield b s g :
  neat false (events g) (completion_of g) ->
  neat b (events (yield_ s ;; g)) (completion_of (yield_ s ;; g)).
Proof.
  intros H. unfold yield_. rewrite gseq_perform. cbn [events completion_of].
  now constructor.
Qed.

Lemma neat_last_yield b s : neat b (events (yield_ s)) (completion_of (yield_ s)).
Proof. cbn. apply neat_string. apply neat_done. Qed.

Lemma neat_stopped b c : c <> Returned -> neat b (events (stop c)) (completion_of (stop c)).
Proof. intros H. cbn. now apply neat_stop. Qed.

Lemma neat_perform_Call b k a g :
  neat b (events g) (completion_of g) ->
  neat b (events (perform (Call k a) ;; g)) (completion_of (perform (Call k a) ;; g)).
Proof. intros H. rewrite gseq_perform. cbn [events completion_of]. now constructor. Qed.

Lemma neat_calls_mapi b (a : list value) g : forall n,
  neat b (events g) (completion_of g) ->
  neat b (events (MkGen (mapi (fun i x => Call (Some (index_toString i)) x) n a) Returned ;; g))
         (completion_of
            (MkGen (mapi (fun i x => Call (Some (index_toString i)) x) n a) Returned ;; g)).
Proof.
  intros n H. rewrite gseq_returned. cbn [events completion_of].
  revert n. induction a as [|x a IH]; intros n; simpl; [exact H|]. constructor. apply IH.
Qed.

Lemma neat_calls_map b (obj : list (string * value)) g :
  neat b (events g) (completion_of g) ->
  neat b (events (MkGen (map (fun kx => Call (Some (fst kx)) (snd kx)) obj) Returned ;; g))
         (completion_of
            (MkGen (map (fun kx => Call (Some (fst kx)) (snd kx)) obj) Returned ;; g)).
Proof.
  intros H. rewrite gseq_returned. cbn [events completion_of].
  induction obj as [|x obj IH]; simpl; [exact H|]. now constructor.
Qed.

Lemma neat_elements rec arr k :
  (forall x, neat false (events (rec x)) (completion_of (rec x))) ->
  neat false (events k) (completion_of k) ->
  neat false (events (elements rec arr ;; k)) (completion_of (elements rec arr ;; k)).
Proof.
  intros H. revert k. induction arr as [|x arr IH]; intros k Hk.
  - cbn [elements]. now rewrite gseq_skip_l.
  - cbn [elements]. destruct arr as [|y arr].
    + apply neat_gseq; [apply H|exact Hk].
    + rewrite !gseq_assoc. apply neat_gseq; [apply H|].
      apply neat_yield. now apply IH.
Qed.

Lemma neat_members rec obj k :
  (forall x, neat false (events (rec x)) (completion_of (rec x))) ->
  neat false (events k) (completion_of k) ->
  neat false (events (members rec obj ;; k)) (completion_of (members rec obj ;; k)).
Proof.
  intros H. revert k. induction obj as [|[key x] obj IH]; intros k Hk.
  - cbn [members]. now rewrite gseq_skip_l.
  - cbn [members]. destruct obj as [|[key' y] obj].
    + rewrite gseq_assoc. apply neat_yield. apply neat_gseq; [apply H|exact Hk].
    + rewrite !gseq_assoc. apply neat_yield. apply neat_gseq; [apply H|].
      apply neat_yield. now apply IH.
Qed.

(** Whatever the replacer, the budget and the value, the events of
    [jsonGenerator] are neat, wherever the generator stands. *)
Lemma jsonGenerator_neat R : forall fuel v, neat_gen (jsonGenerator R fuel v).
Proof.
  induction fuel as [|fuel IH]; intros v pos; [apply neat_stopped; discriminate|].
  assert (Rec : forall x, neat false (events (jsonGenerator R fuel x))
                               (completion_of (jsonGenerator R fuel x)))
    by (intros x; apply IH).
  rewrite jsonGenerator_S.
  destruct v as [| | | | | | |items|props|t x|t e|chunks failure|items failure];
    try (cbn; repeat constructor; fail); cbn [jsonGenerator_body].
  - (* arrays *)
    unfold arrayGenerator.
    assert (Loop : forall l pos', neat pos'
              (events (yield_ "[" ;; elements (jsonGenerator R fuel) l ;; yield_ "]"))
              (completion_of (yield_ "[" ;; elements (jsonGenerator R fuel) l ;;
                              yield_ "]"))).
    { intros l pos'. apply neat_yield. apply neat_elements; [exact Rec|].
      apply neat_last_yield. }
    destruct (as_function R) as [f|]; [|apply Loop].
    apply neat_perform_Call.
    destruct (f None (VArr items));
      try (apply neat_stopped; destruct (has_map_method _); discriminate).
    apply neat_calls_mapi. apply Loop.
  - (* objects *)
    unfold objectGenerator. apply neat_yield.
    destruct (as_function R) as [f|].
    + apply neat_perform_Call.
      destruct (own_enumerable (f None (VObj props))) as [obj|];
        [|apply neat_stopped; discriminate].
      apply neat_calls_map. apply neat_members; [exact Rec|apply neat_last_yield].
    + destruct (as_array R) as [allow|]; [|apply neat_stopped; discriminate].
      destruct (inherits_stream allow props); [apply neat_stopped; discriminate|].
      apply neat_members; [exact Rec|apply neat_last_yield].
  - (* a promise that fulfils *)
    change (neat pos (events (jsonGenerator R (S fuel) (VFulfils t x)))
                 (completion_of (jsonGenerator R (S fuel) (VFulfils t x)))).
    destruct (outcome t x) as [[t' y]|[t' e]] eqn:E.
    * rewrite (jsonGenerator_fulfils R fuel t x t' y E). cbn [events completion_of].
      destruct pos.
      -- apply neat_promise. discriminate.
      -- apply neat_fulfils. apply IH.
    * rewrite (jsonGenerator_adopts_rejection R fuel t x t' e E).
      cbn [events completion_of]. apply neat_promise. discriminate.
  - (* a promise that rejects *)
    cbn. apply neat_promise. discriminate.
Qed.

Lemma run_fresh_calls_mapi (a : list value) g : forall n,
  run (fresh (MkGen (mapi (fun i x => Call (Some (index_toString i)) x) n a) Returned ;; g))
  = run (fresh g).
Proof.
  intros n. rewrite gseq_returned, !run_fresh. cbn [events completion_of].
  revert n. induction a as [|x a IH]; intros n; simpl; [reflexivity|].
  rewrite run_Call. apply IH.
Qed.

Lemma run_fresh_calls_map (obj : list (string * value)) g :
  run (fresh (MkGen (map (fun kx => Call (Some (fst kx)) (snd kx)) obj) Returned ;; g))
  = run (fresh g).
Proof.
  rewrite gseq_returned, !run_fresh. cbn [events completion_of].
  induction obj as [|x obj IH]; simpl; [reflexivity|].
  rewrite run_Call. apply IH.
Qed.

Lemma run_fresh_perform_Call k a g :
  run (fresh (perform (Call k a) ;; g)) = run (fresh g).
Proof. rewrite gseq_perform, !run_fresh. cbn [events completion_of]. apply run_Call. Qed.

Lemma run_fresh_last_yield s : run (fresh (yield_ s)) = [Data s; End].
Proof. reflexivity. Qed.

Lemma map_mapi {A B C : Type} (g : B -> C) (h : nat -> A -> B) (l : list A) : forall n,
  map g (mapi h n l) = mapi (fun i x => g (h i x)) n l.
Proof. induction l as [|x l IH]; intros n; simpl; [reflexivity|now rewrite IH]. Qed.

Lemma mapi_identity (a : list value) : forall n,
  mapi (fun i x => nullify (identity_replacer (Some (index_toString i)) x)) n a
  = map nullify a.
Proof. intros n. apply (mapi_ignore_index nullify). Qed.

(** The loop of lines 91-99 between its brackets. *)
Lemma run_array_loop R fuel l :
  run (fresh (yield_ "[" ;; elements (jsonGenerator R fuel) l ;; yield_ "]"))
  = Data "[" :: chain (map (fun x => run (fresh (jsonGenerator R fuel (toJSON x)))) l)
                      [Data "]"; End].
Proof.
  rewrite run_fresh_yield, run_elements, run_fresh_last_yield; [reflexivity|].
  intros x _. apply jsonGenerator_neat.
Qed.

(** The loop of lines 134-143 and the closing brace. *)
Lemma run_object_loop R fuel obj :
  run (fresh (members (jsonGenerator R fuel) obj ;; yield_ "}"))
  = chain (map (fun kx => Data (key_fragment (fst kx))
                          :: run (fresh (jsonGenerator R fuel (toJSON (snd kx))))) obj)
          [Data "}"; End].
Proof.
  rewrite run_members, run_fresh_last_yield; [reflexivity|].
  intros key x _. apply jsonGenerator_neat.
Qed.

(** ** The item reader *)

Lemma chunks_of_finished frags s :
  (s = End \/ exists e, s = Error e) -> chunks_of (map Data frags ++ [s]) = frags.
Proof.
  intros H. induction frags as [|x frags IH]; cbn.
  - destruct H as [->|[e ->]]; reflexivity.
  - now rewrite <- IH at 2.
Qed.

(** What a stream bound to the reader of the items pushes: the runs of the
    items one after the other, a comma chunk before every item but the
    first, and [next] in the place of the last end of output. *)
Lemma reader_chain rec items next :
  Forall (fun item => finished (run (fresh (rec (toJSON (nullify item)))))) items ->
  forall first,
    (let (frags, fin) := reader_output rec first items None in
     map Data frags ++ match fin with Ended => next | _ => ending_signal fin end)
    = if first
      then chain (map (fun item => run (fresh (rec (toJSON (nullify item))))) items) next
      else match items with
           | [] => next
           | _ => Data "," ::
                  chain (map (fun item => run (fresh (rec (toJSON (nullify item))))) items)
                        next
           end.
Proof.
  induction 1 as [|item items Hitem Hrest IH]; intros first.
  - now destruct first.
  - cbn [reader_output map]. destruct Hitem as (fr & s & E & Hs). rewrite E.
    rewrite last_last, (chunks_of_finished fr s Hs). specialize (IH false).
    assert (T : forall k,
              through (map Data fr ++ [s]) k
              = map Data fr ++ match s with End => k | _ => [s] end).
    { intros k. rewrite through_Data. destruct Hs as [->|[e ->]]; reflexivity. }
    assert (C : chain ((map Data fr ++ [s])
                       :: map (fun item => run (fresh (rec (toJSON (nullify item))))) items)
                      next
                = map Data fr
                  ++ match s with
                     | End =>
                         match items with
                         | [] => next
                         | _ => Data "," ::
                                chain (map (fun item =>
                                              run (fresh (rec (toJSON (nullify item)))))
                                           items) next
                         end
                     | _ => [s]
                     end).
    { cbn [chain]. destruct items as [|i2 items]; cbn [map]; rewrite T;
        destruct Hs as [->|[e ->]]; reflexivity. }
    rewrite C. clear C T.
    destruct Hs as [->|[e ->]].
    + destruct (reader_output rec false items None) as [more fin].
      rewrite map_app, <- !app_assoc, IH.
      destruct first; cbn [app map]; rewrite ?map_app; reflexivity.
    + destruct first; cbn [app map ending_signal]; rewrite ?map_app; reflexivity.
Qed.

(* ================================================================== *)
(** * Part IV: the properties stated by the specification *)

(** C1. Line 137 puts the key between quotes as it is, where
    [JSON.stringify] escapes it: for [quote_in_key] the stream leaves the
    double quote inside the key bare and [JSON.stringify] puts a backslash
    before it. *)
Theorem keys_are_not_escaped :
  output (serialize 2 (of_json quote_in_key) no_replacer)
  = ("{" ++ dquote ++ "a" ++ dquote ++ "b" ++ dquote ++ ":1}")%string
  /\ JSON.stringify quote_in_key
     = ("{" ++ dquote ++ "a" ++ backslash ++ dquote ++ "b" ++ dquote ++ ":1}")%string
  /\ output (serialize 2 (of_json quote_in_key) no_replacer)
     <> JSON.stringify quote_in_key.
Proof. repeat split; try reflexivity. vm_compute. discriminate. Qed.

(** C2. [jsonGenerator] resumes with [jsonGenerator(resolved)]: unlike
    the root (line 14), the elements of an array (line 94) and the members
    of an object (line 138), the value a promise resolves to is not passed
    through [toJSON].  A promise resolving to [hooked] is serialised from
    the object's own properties, where the object itself, in the same
    position, is serialised as its hook's result.  A promise resolving to
    the string abc gives the one fragment made of abc between quotes. *)
Theorem resolved_value_skips_hook :
  output (serialize 3 (VFulfils 0 hooked) no_replacer)
  = ("{" ++ quoted "x" ++ ":1}")%string
  /\ output (serialize 3 hooked no_replacer)
     = ("{" ++ quoted "a" ++ ":1}")%string
  /\ output (serialize 4 (VArr [VFulfils 0 hooked]) no_replacer)
     = ("[{" ++ quoted "x" ++ ":1}]")%string
  /\ output (serialize 4 (VArr [hooked]) no_replacer)
     = ("[{" ++ quoted "a" ++ ":1}]")%string
  /\ serialize 2 (VFulfils 0 (VStr "abc")) no_replacer = [Data (quoted "abc"); End].
Proof. repeat split; reflexivity. Qed.

(** C3. A text source (a [Readable] with [objectMode] off) becomes one
    JSON string literal.  Wherever the generator reaches it -- with any
    continuation [rest], also as the value a promise resolved to -- the
    stream pushes an opening quote, every chunk JSON-escaped without
    its delimiting quotes, and the closing quote once the source has
    ended, and then goes on with [rest]; as a root the whole output is
    the string literal of the concatenated chunks; for [funky_chunks] (an
    a, a double quote and a b; a line feed and a c) the double quote and
    the line feed come out escaped. *)
Theorem text_source_is_one_string_literal :
  forall replacer fuel chunks,
    (forall rest c clk,
        run (St (events (jsonGenerator replacer (S fuel) (VText chunks None)) ++ rest)
                c None false clk)
        = Data dquote :: map (fun x => Data (JSON.escape x)) chunks
          ++ Data dquote :: run (St rest c None false clk))
    /\ (forall t rest c pm clk,
        run (St (events (jsonGenerator replacer (S (S fuel)) (VFulfils t (VText chunks None)))
                 ++ rest) c None pm clk)
        = Data dquote :: map (fun x => Data (JSON.escape x)) chunks
          ++ Data dquote :: run (St rest c None false (Nat.max clk t)))
    /\ serialize (S fuel) (VText chunks None) replacer
       = Data dquote :: map (fun x => Data (JSON.escape x)) chunks ++ [Data dquote; End]
    /\ output (serialize (S fuel) (VText chunks None) replacer) = JSON.quote (join chunks)
    /\ output (serialize (S fuel) (VText funky_chunks None) replacer)
       = (dquote ++ "a" ++ backslash ++ dquote ++ "b" ++ backslash ++ "nc" ++ dquote)%string
    /\ output (serialize 2 (VArr [VNum 1; VText ["x"; "y"] None; VNum 2]) (RVal VUndefined))
       = ("[1," ++ dquote ++ "xy" ++ dquote ++ ",2]")%string
    /\ output (serialize 2 (VObj [("s", VText ["x"; "y"] None); ("n", VNull)])
                         (RVal VUndefined))
       = ("{" ++ dquote ++ "s" ++ dquote ++ ":" ++ dquote ++ "xy" ++ dquote ++ ","
              ++ dquote ++ "n" ++ dquote ++ ":null}")%string.
Proof.
  intros replacer fuel chunks.
  assert (Root : serialize (S fuel) (VText chunks None) replacer
       = Data dquote :: map (fun x => Data (JSON.escape x)) chunks ++ [Data dquote; End]).
  { unfold serialize, new_JStream, fresh. simpl toJSON.
    rewrite jsonGenerator_VText, run_SetSrc, run_Raw, run_Yield. reflexivity. }
  assert (Out : forall l, output (Data dquote :: map (fun x => Data (JSON.escape x)) l
                                  ++ [Data dquote; End]) = JSON.quote (join l)).
  { intros l. rewrite output_cons_Data, output_app, output_map_Data, <- escape_join.
    reflexivity. }
  split; [|split; [|split; [|split; [|split; [|split; reflexivity]]]]].
  - intros rest c clk. rewrite jsonGenerator_VText. cbn [events app].
    now rewrite run_SetSrc, run_Raw, run_Yield.
  - intros t rest c pm clk.
    change (events (jsonGenerator replacer (S (S fuel)) (VFulfils t (VText chunks None))))
      with [SetPMode true; Yield (YPromise t None); SetPMode false;
            SetSrc (Raw chunks None); Yield (YString dquote); Yield (YString dquote)].
    cbn [app]. now rewrite run_fulfilled_SetSrc, run_Raw, run_Yield.
  - exact Root.
  - rewrite Root. apply Out.
  - unfold serialize, new_JStream, fresh. simpl toJSON.
    rewrite jsonGenerator_VText, run_SetSrc, run_Raw, run_Yield. reflexivity.
Qed.

(** C4. An item source (a [Readable] in object mode) becomes a JSON
    array.  Whenever the serialisation of each of its items comes to its
    end or to an error, the stream pushes an opening bracket, then the
    whole serialisation of the items in arrival order -- every item
    serialised as a root of its own, hook, classification and the same
    replacer included, an item that is [undefined] or a function as
    [null] -- with a comma between two items, and the closing bracket
    after the source has ended; an item that ends in an error ends the
    array there.  This holds with any continuation [rest] of the
    generator.  The items 1, true, {} give [[1,true,{}]]; an item with a
    conversion hook gives the hook's result; under the list a, b the
    items {a:1,b:2,c:3} give {a:1,b:2} each. *)
Theorem item_source_is_array :
  forall replacer fuel items,
    Forall (fun item => finished (serialize fuel (nullify item) replacer)) items ->
    (forall rest c clk,
        run (St (events (jsonGenerator (normalize_replacer replacer) (S fuel)
                           (VItems items None)) ++ rest) c None false clk)
        = Data "[" ::
          chain (map (fun item => serialize fuel (nullify item) replacer) items)
                (Data "]" :: run (St rest c None false clk)))
    /\ serialize (S fuel) (VItems items None) replacer
       = Data "[" ::
         chain (map (fun item => serialize fuel (nullify item) replacer) items)
               [Data "]"; End]
    /\ output (serialize 2 (VItems [VNum 1; VBool true; VObj []] None) no_replacer)
       = "[1,true,{}]"
    /\ output (serialize 2 (VItems [VNum 1; VBool true; VObj []; VStr (quoted "string");
                                    VFun VNull; VUndefined; VNaN] None) no_replacer)
       = ("[1,true,{}," ++ dquote ++ backslash ++ dquote ++ "string" ++ backslash ++ dquote
          ++ dquote ++ ",null,null,null]")%string
    /\ output (serialize 3 (VItems [hooked; VNum 2] None) no_replacer)
       = ("[{" ++ quoted "a" ++ ":1},2]")%string
    /\ output (serialize 3 (VItems [VObj [("a", VNum 1); ("b", VNum 2); ("c", VNum 3)];
                                    VObj [("a", VNum 1); ("b", VNum 2); ("c", VNum 3)]] None)
                         (RVal (VArr [VStr "a"; VStr "b"])))
       = ("[{" ++ quoted "a" ++ ":1," ++ quoted "b" ++ ":2},{"
          ++ quoted "a" ++ ":1," ++ quoted "b" ++ ":2}]")%string
    /\ serialize 3 (VItems [VNum 1; VRejects 0 "boom"; VNum 2] None) no_replacer
       = [Data "["; Data "1"; Data ","; Error "boom"].
Proof.
  intros replacer fuel items H.
  assert (Ctx : forall rest c clk,
        run (St (events (jsonGenerator (normalize_replacer replacer) (S fuel)
                           (VItems items None)) ++ rest) c None false clk)
        = Data "[" ::
          chain (map (fun item => serialize fuel (nullify item) replacer) items)
                (Data "]" :: run (St rest c None false clk))).
  { intros rest c clk. rewrite jsonGenerator_VItems. cbn [events app].
    unfold new_ObjectReader.
    pose proof (reader_chain (jsonGenerator (normalize_replacer replacer) fuel) items
                  (run (St (Yield (YString "]") :: rest) c None false clk)) H true) as C.
    destruct (reader_output (jsonGenerator (normalize_replacer replacer) fuel)
                true items None) as [frags fin].
    rewrite run_SetSrc, run_ObjectReader, C, run_Yield. reflexivity. }
  split; [exact Ctx|]. split; [|repeat split; reflexivity].
  specialize (Ctx [] Returned 0). rewrite app_nil_r in Ctx.
  unfold serialize at 1, new_JStream, fresh. simpl toJSON.
  destruct (jsonGenerator (normalize_replacer replacer) (S fuel) (VItems items None))
    as [evs c] eqn:G.
  rewrite jsonGenerator_VItems in G. inversion G; subst; clear G.
  exact Ctx.
Qed.

Lemma item_source_is_array_witness :
  Forall (fun item => finished (serialize 2 (nullify item) no_replacer))
         [hooked; VUndefined; VRejects 0 "boom"; VNum 2]
  /\ serialize 3 (VItems [hooked; VUndefined; VRejects 0 "boom"; VNum 2] None) no_replacer
     = [Data "["; Data "{"; Data (key_fragment "a"); Data "1"; Data "}"; Data ",";
        Data "null"; Data ","; Error "boom"].
Proof.
  assert (H : Forall (fun item => finished (serialize 2 (nullify item) no_replacer))
                     [hooked; VUndefined; VRejects 0 "boom"; VNum 2]).
  { repeat constructor.
    - exists ["{"; key_fragment "a"; "1"; "}"], End. split; [reflexivity|now left].
    - exists ["null"], End. split; [reflexivity|now left].
    - exists [], (Error "boom"). split; [reflexivity|right; now exists "boom"].
    - exists ["2"], End. split; [reflexivity|now left]. }
  split; [exact H|].
  rewrite (proj1 (proj2 (item_source_is_array no_replacer 2 _ H))). reflexivity.
Defined.

(** C5. When a bound text source, item source or promise fails, the
    serialisation stops there.  Any run that carries an error signal is a
    sequence of chunks followed by that one signal: the error is emitted
    once, nothing is pushed after it and the end of output is never
    signalled.  A stream bound to a failing source forwards what the
    source still delivers and then emits the source's error, whatever the
    generator had left to do; a promise that rejects gives its error in
    place of any further output. *)
Theorem failure_aborts_serialization :
  (forall fuel root replacer e,
      In (Error e) (serialize fuel root replacer) ->
      exists frags, serialize fuel root replacer = map Data frags ++ [Error e])
  /\ (forall chunks e evs c pm clk,
      run (St evs c (Some (Raw chunks (Some e))) pm clk)
      = map (fun x => Data (JSON.escape x)) chunks ++ [Error e])
  /\ (forall frags e evs c pm clk,
      run (St evs c (Some (ObjectReader frags (Failed e))) pm clk)
      = map Data frags ++ [Error e])
  /\ (forall replacer fuel t e rest c pm clk,
      run (St (events (jsonGenerator replacer (S fuel) (VRejects t e)) ++ rest)
              c None pm clk)
      = [Error e])
  /\ (forall replacer fuel chunks e,
      serialize (S fuel) (VText chunks (Some e)) replacer
      = Data dquote :: map (fun x => Data (JSON.escape x)) chunks ++ [Error e])
  /\ (forall replacer fuel t e,
      serialize (S fuel) (VRejects t e) replacer = [Error e])
  /\ (forall replacer fuel e,
      serialize (S fuel) (VItems [] (Some e)) replacer = [Data "["; Error e]).
Proof.
  split; [|split; [|split; [|split; [|split; [|split]]]]].
  - intros fuel root replacer e H. unfold serialize, run in *.
    destruct (flow_shape (S (weight (new_JStream fuel root replacer)))
                         (new_JStream fuel root replacer))
      as (frags & tail & E & T).
    rewrite E in *. exists frags. f_equal.
    apply in_app_or in H. destruct H as [H|H].
    + exfalso. revert H. now apply not_in_map_Data.
    + destruct T as [T|(s & T & D)]; subst tail.
      * destruct H.
      * destruct H as [H|[]]. now subst s.
  - intros. apply run_Raw.
  - intros. apply run_ObjectReader.
  - intros. rewrite jsonGenerator_VRejects. apply run_rejected.
  - intros. unfold serialize, new_JStream, fresh. simpl toJSON.
    rewrite jsonGenerator_VText, run_SetSrc. now rewrite run_Raw.
  - intros. reflexivity.
  - intros. reflexivity.
Qed.

Lemma failure_aborts_serialization_witness :
  In (Error "boom")
     (serialize 2 (VArr [VText ["ab"] (Some "boom"); VNum 1]) no_replacer)
  /\ exists frags,
       serialize 2 (VArr [VText ["ab"] (Some "boom"); VNum 1]) no_replacer
       = map Data frags ++ [Error "boom"].
Proof.
  assert (H : In (Error "boom")
     (serialize 2 (VArr [VText ["ab"] (Some "boom"); VNum 1]) no_replacer)).
  { vm_compute. right. right. right. now left. }
  split; [exact H|].
  exact (proj1 failure_aborts_serialization 2 _ no_replacer "boom" H).
Defined.

(** C6. The signals of a run are a function of the structure of the root
    and of the replacer alone: two roots that are equal but for the
    instants at which their promises settle give, under the same
    replacer, the same fragments in the same order (for a transform
    function, one that cannot tell when a promise will settle); roots that
    are equal give the same run.  With a slow promise before a fast one
    the run lasts longer, and the output still has the slow one's value
    first.  Under the identity replacer or a list of keys, a recursion
    budget above the height of an ordinary root (one with no member
    under [proto_key]) brings the run to its end. *)
Theorem fragment_order_is_structural :
  forall fuel replacer v1 v2,
    timing_blind replacer ->
    same_structure v1 v2 ->
    serialize fuel v1 replacer = serialize fuel v2 replacer
    /\ (forall r, timing_blind (RVal r))
    /\ (identity_or_allowlist replacer -> height v1 < fuel -> ordinary v1 = true ->
        finished (serialize fuel v1 replacer))
    /\ output (serialize 3 slow_then_fast no_replacer)
       = ("[" ++ quoted "slow" ++ "," ++ quoted "fast" ++ "]")%string
    /\ elapsed 3 slow_then_fast no_replacer = 50
    /\ elapsed 3 both_fast no_replacer = 1.
Proof.
  intros fuel replacer v1 v2 HR Hv.
  split; [|split; [exact timing_blind_value|split;
    [apply serialize_finishes|repeat split; reflexivity]]].
  unfold serialize, new_JStream. apply run_fresh_observe.
  apply jsonGenerator_same_structure.
  - now apply timing_blind_normalize.
  - now apply toJSON_same.
Qed.

Lemma fragment_order_is_structural_witness :
  timing_blind no_replacer
  /\ same_structure slow_then_fast both_fast
  /\ serialize 3 slow_then_fast no_replacer = serialize 3 both_fast no_replacer.
Proof.
  assert (B : timing_blind no_replacer) by (intros f Hf; discriminate Hf).
  split; [exact B|]. split; [reflexivity|].
  exact (proj1 (fragment_order_is_structural 3 no_replacer slow_then_fast both_fast
                  B eq_refl)).
Defined.







(** C9. Under a transform function [f], [arrayGenerator] and
    [objectGenerator] first call [f] with an undefined key and the whole
    value; the result is the working array, respectively is copied into
    the working object.  Then [f] is called once for each member of the
    working value, in order, with the member's index as a string or its
    key, and with the member's value; the members that are serialised are
    the results of these calls ([null] for an absent result in an array,
    no member for an absent result in an object).  The doubling function
    turns {a:1,b:2} into {a:2,b:4} and [1,2,3] into [2,4,6]. *)
Theorem transform_function_calls :
  forall (f : option string -> value -> value) fuel,
    (forall l w,
        f None (VArr l) = VArr w ->
        events (jsonGenerator (RFn f) (S fuel) (VArr l))
        = Call None (VArr l)
          :: mapi (fun i x => Call (Some (index_toString i)) x) 0 w
          ++ Yield (YString "[")
          :: events (elements (jsonGenerator (RFn f) fuel)
                       (mapi (fun i x => nullify (f (Some (index_toString i)) x)) 0 w)
                     ;; yield_ "]"))
    /\ (forall props obj,
        own_enumerable (f None (VObj props)) = Some obj ->
        events (jsonGenerator (RFn f) (S fuel) (VObj props))
        = Yield (YString "{")
          :: Call None (VObj props)
          :: map (fun kx => Call (Some (fst kx)) (snd kx)) obj
          ++ events (members (jsonGenerator (RFn f) fuel) (replace_members f obj)
                     ;; yield_ "}"))
    /\ (forall obj,
        replace_members f obj
        = flat_map (fun kx => if absent (f (Some (fst kx)) (snd kx)) then []
                              else [(fst kx, f (Some (fst kx)) (snd kx))]) obj)
    /\ output (serialize 2 (VObj [("a", VNum 1); ("b", VNum 2)]) (RFn doubling))
       = ("{" ++ quoted "a" ++ ":2," ++ quoted "b" ++ ":4}")%string
    /\ output (serialize 2 (VArr [VNum 1; VNum 2; VNum 3]) (RFn doubling)) = "[2,4,6]".
Proof.
  intros f fuel. split; [|split; [|split; [|split]]].
  - intros l w H. cbn [jsonGenerator jsonGenerator_body].
    unfold arrayGenerator. cbn [as_function]. rewrite H.
    now rewrite events_perform, events_returned.
  - intros props obj H. cbn [jsonGenerator jsonGenerator_body].
    unfold objectGenerator. cbn [as_function]. rewrite H.
    unfold yield_ at 1. now rewrite !events_perform, events_returned.
  - apply replace_members_flat_map.
  - reflexivity.
  - reflexivity.
Qed.

Lemma transform_function_calls_witness :
  doubling None (VArr [VNum 1; VNum 2; VNum 3]) = VArr [VNum 1; VNum 2; VNum 3]
  /\ events (jsonGenerator (RFn doubling) 2 (VArr [VNum 1; VNum 2; VNum 3]))
     = [Call None (VArr [VNum 1; VNum 2; VNum 3]);
        Call (Some "0") (VNum 1); Call (Some "1") (VNum 2); Call (Some "2") (VNum 3);
        Yield (YString "["); Yield (YString "2"); Yield (YString ",");
        Yield (YString "4"); Yield (YString ","); Yield (YString "6");
        Yield (YString "]")].
Proof.
  split; [reflexivity|].
  exact (proj1 (transform_function_calls doubling 1)
           [VNum 1; VNum 2; VNum 3] [VNum 1; VNum 2; VNum 3] eq_refl).
Defined.

(** C10. A replacer argument that is neither a function nor an array (a
    string, a number, a plain object, ...) is accepted: the constructor
    replaces it by the identity function, builds the same stream object as
    with no replacer at all, and the serialisation is the same; it comes to
    its end when the recursion budget is above the height of the root
    and the root is ordinary (no member under [proto_key]). *)
Theorem other_replacer_is_identity :
  forall fuel root v,
    is_some (as_function (RVal v)) = false ->
    is_some (as_array (RVal v)) = false ->
    normalize_replacer (RVal v) = RFn identity_replacer
    /\ new_JStream fuel root (RVal v) = new_JStream fuel root no_replacer
    /\ serialize fuel root (RVal v) = serialize fuel root no_replacer
    /\ (height root < fuel -> ordinary root = true ->
        finished (serialize fuel root (RVal v))).
Proof.
  intros fuel root v Hf Ha.
  assert (N : normalize_replacer (RVal v) = RFn identity_replacer).
  { unfold normalize_replacer. rewrite Hf, Ha. simpl.
    now rewrite orb_true_r. }
  split; [exact N|].
  assert (J : new_JStream fuel root (RVal v) = new_JStream fuel root no_replacer).
  { unfold new_JStream. now rewrite N. }
  split; [exact J|]. split; [unfold serialize; now rewrite J|].
  intros Hh Ho. apply serialize_finishes; [now left|exact Hh|exact Ho].
Qed.

Lemma other_replacer_is_identity_witness :
  is_some (as_function (RVal (VStr "indent"))) = false
  /\ is_some (as_array (RVal (VStr "indent"))) = false
  /\ serialize 3 (VObj [("a", VNum 1); ("b", VArr [VBool true])]) (RVal (VStr "indent"))
     = serialize 3 (VObj [("a", VNum 1); ("b", VArr [VBool true])]) no_replacer.
Proof.
  split; [reflexivity|]. split; [reflexivity|].
  exact (proj1 (proj2 (proj2 (other_replacer_is_identity 3
           (VObj [("a", VNum 1); ("b", VArr [VBool true])]) (VStr "indent")
           eq_refl eq_refl)))).
Defined.

(* ================================================================== *)
(** * Part V: further properties of the code *)

(** ** Escaped chunks *)

Lemma well_escaped_escape_char c s :
  well_escaped s = true -> well_escaped (JSON.escape_char c ++ s) = true.
Proof.
  intros H. destruct c as [[] [] [] [] [] [] [] []]; exact H.
Qed.

Lemma well_escaped_escape x : forall s,
  well_escaped s = true -> well_escaped (JSON.escape x ++ s) = true.
Proof.
  induction x as [|c x IH]; intros s H; [exact H|].
  cbn [JSON.escape]. rewrite string_app_assoc.
  apply well_escaped_escape_char. now apply IH.
Qed.

Lemma well_escaped_chunks (chunks : list string) :
  well_escaped (join (map (fun x => slice_1_m1 (JSON.quote x)) chunks)) = true.
Proof.
  induction chunks as [|x chunks IH]; [reflexivity|].
  cbn [map join fold_right]. rewrite slice_quote.
  now apply well_escaped_escape.
Qed.

(** X1. Whatever chunks a text source delivers, and wherever their
    boundaries fall, what [_read] forwards for them (line 157) joins into
    the inside of one JSON string literal: no bare double quote, no
    control character, no backslash left without the code unit it
    escapes.  The output for a text source is that text between the two
    quotes of the generator. *)
Theorem text_source_output_is_a_literal :
  forall replacer fuel chunks,
    well_escaped (join (map (fun x => slice_1_m1 (JSON.quote x)) chunks)) = true
    /\ output (serialize (S fuel) (VText chunks None) replacer)
       = (dquote ++ join (map (fun x => slice_1_m1 (JSON.quote x)) chunks) ++ dquote)%string.
Proof.
  intros replacer fuel chunks. split; [apply well_escaped_chunks|].
  unfold serialize, new_JStream, fresh. simpl toJSON.
  rewrite jsonGenerator_VText, run_SetSrc, run_Raw, run_Yield.
  rewrite output_cons_Data, output_app, output_map_Data.
  rewrite (map_ext _ JSON.escape slice_quote). reflexivity.
Qed.

(** ** Promises that resolve to something unexpected *)

Lemma outcome_instant x : forall t1 t2,
  match outcome t1 x, outcome t2 x with
  | inl (_, a), inl (_, b) => a = b
  | inr (_, e1), inr (_, e2) => e1 = e2
  | _, _ => False
  end.
Proof.
  induction x as [| | | | | |ret IHret|items|props|t0 x IH|t0 e|chunks failure|items failure];
    intros t1 t2; cbn [outcome]; try reflexivity.
  apply IH.
Qed.

(** X2. A promise resolved with a promise takes over its outcome before
    the [then] callback of line 173 is called: the stream gives the
    signals of the inner promise, so the value it fulfils with is
    serialised and, if it rejects, its error is the one reported. *)
Theorem promise_resolved_with_a_promise_is_adopted :
  forall fuel t t' replacer,
    (forall x,
        serialize (S fuel) (VFulfils t (VFulfils t' x)) replacer
        = serialize (S fuel) (VFulfils t' x) replacer)
    /\ (forall e,
        serialize (S fuel) (VFulfils t (VRejects t' e)) replacer = [Error e])
    /\ output (serialize 2 (VFulfils 1 (VFulfils 2 (VStr "abc"))) no_replacer)
       = quoted "abc"
    /\ serialize 3 (VArr [VNum 1; VFulfils 1 (VFulfils 9 (VRejects 2 "boom")); VNum 2])
                 no_replacer
       = [Data "["; Data "1"; Data ","; Error "boom"].
Proof.
  intros fuel t t' replacer. split; [|split; [|split]]; try reflexivity.
  intros x. unfold serialize, new_JStream. cbn [toJSON].
  apply run_fresh_observe. cbn [jsonGenerator jsonGenerator_body outcome].
  pose proof (outcome_instant x (Nat.max t t') t') as O.
  destruct (outcome (Nat.max t t') x) as [[a1 y1]|[a1 r1]],
           (outcome t' x) as [[a2 y2]|[a2 r2]]; try contradiction; subst.
  - now rewrite !observe_gen_gseq.
  - reflexivity.
Qed.

Lemma toJSON_absent_hook props ret :
  get props "toJSON" = VFun ret -> toJSON (VObj props) = ret.
Proof. intros H. cbn [toJSON]. now rewrite H. Qed.

Lemma jsonGenerator_absent R fuel x :
  absent x = true -> jsonGenerator R (S fuel) x = perform (Yield YUndefined).
Proof. destruct x; try discriminate; reflexivity. Qed.

Lemma normalize_no_replacer : normalize_replacer no_replacer = RFn identity_replacer.
Proof. reflexivity. Qed.

Lemma replace_members_identity props :
  replace_members identity_replacer props
  = filter (fun kx => negb (absent (snd kx))) props.
Proof.
  induction props as [|[k x] props IH]; [reflexivity|].
  cbn [replace_members filter snd]. change (identity_replacer (Some k) x) with x.
  rewrite IH. now destruct (absent x).
Qed.

(** X3. [arrayGenerator] and [objectGenerator] test for [undefined] and
    functions before the value is passed through [toJSON] or, for a
    promise, resolved.  A member whose value turns out absent only then -- a
    promise resolving to [undefined] or to a function, an object whose
    [toJSON] returns one -- keeps its place: the stream pushes an empty
    chunk for it and goes on, so that under the identity replacer an
    object with such a member (under a key other than [proto_key], which
    no copy keeps) gives its key followed by no value. *)
Theorem late_absence_leaves_a_hole :
  forall fuel x,
    absent x = true ->
    (forall R t rest c pm clk,
        run (St (events (jsonGenerator R (S (S fuel)) (VFulfils t x)) ++ rest) c None pm clk)
        = Data EmptyString :: run (St rest c None false (Nat.max clk t)))
    /\ (forall R props rest c clk,
        get props "toJSON" = VFun x ->
        run (St (events (jsonGenerator R (S fuel) (toJSON (VObj props))) ++ rest)
                c None false clk)
        = Data EmptyString :: run (St rest c None false clk))
    /\ (forall key t,
        key <> proto_key ->
        serialize (S (S (S fuel))) (VObj [(key, VFulfils t x)]) no_replacer
        = [Data "{"; Data (key_fragment key); Data EmptyString; Data "}"; End])
    /\ (forall key props,
        key <> "toJSON" ->
        key <> proto_key ->
        get props "toJSON" = VFun x ->
        serialize (S (S fuel)) (VObj [(key, VObj props)]) no_replacer
        = [Data "{"; Data (key_fragment key); Data EmptyString; Data "}"; End])
    /\ (forall t,
        serialize (S (S (S fuel))) (VArr [VNum 1; VFulfils t x]) no_replacer
        = [Data "["; Data "1"; Data ","; Data EmptyString; Data "]"; End]).
Proof.
  intros fuel x Hx.
  assert (Np : is_promise x = false) by (destruct x; try discriminate; reflexivity).
  split; [|split; [|split; [|split]]].
  - intros R t rest c pm clk. rewrite jsonGenerator_VFulfils by exact Np.
    rewrite (jsonGenerator_absent R fuel x Hx). cbn [events perform app].
    apply run_fulfilled_undefined.
  - intros R props rest c clk H. rewrite (toJSON_absent_hook props x H).
    rewrite (jsonGenerator_absent R fuel x Hx). cbn [events perform app].
    apply run_Yield_undefined.
  - intros key t Hproto. unfold serialize, new_JStream.
    assert (Hp : no_proto_key [(key, VFulfils t x)] = true).
    { cbn. unfold is_proto_key. apply String.eqb_neq in Hproto. now rewrite Hproto. }
    assert (T : toJSON (VObj [(key, VFulfils t x)]) = VObj [(key, VFulfils t x)]).
    { cbn [toJSON get]. now destruct (String.eqb key "toJSON"). }
    rewrite T, normalize_no_replacer.
    rewrite (run_fresh_observe _
      (MkGen [Yield (YString "{"); Yield (YString (key_fragment key));
              SetPMode true; Yield (YPromise 0 None); SetPMode false;
              Yield YUndefined; Yield (YString "}")] Returned)); [reflexivity|].
    rewrite jsonGenerator_S. cbn [jsonGenerator_body].
    rewrite observe_objectGenerator_identity by exact Hp.
    rewrite replace_members_identity.
    cbn [filter snd absent negb members toJSON].
    rewrite !observe_gen_gseq, jsonGenerator_VFulfils by exact Np.
    now rewrite (jsonGenerator_absent _ fuel x Hx).
  - intros key props Hkey Hproto H. unfold serialize, new_JStream.
    assert (Hp : no_proto_key [(key, VObj props)] = true).
    { cbn. unfold is_proto_key. apply String.eqb_neq in Hproto. now rewrite Hproto. }
    assert (T : toJSON (VObj [(key, VObj props)]) = VObj [(key, VObj props)]).
    { cbn [toJSON get]. destruct (String.eqb_spec key "toJSON"); [contradiction|].
      reflexivity. }
    rewrite T, normalize_no_replacer.
    rewrite (run_fresh_observe _
      (MkGen [Yield (YString "{"); Yield (YString (key_fragment key));
              Yield YUndefined; Yield (YString "}")] Returned)); [reflexivity|].
    rewrite jsonGenerator_S. cbn [jsonGenerator_body].
    rewrite observe_objectGenerator_identity by exact Hp.
    rewrite replace_members_identity.
    cbn [filter snd absent negb members].
    rewrite !observe_gen_gseq, (toJSON_absent_hook props x H).
    now rewrite (jsonGenerator_absent _ fuel x Hx).
  - intros t. unfold serialize, new_JStream. cbn [toJSON].
    rewrite normalize_no_replacer.
    rewrite (run_fresh_observe _
      (MkGen [Yield (YString "["); Yield (YString "1"); Yield (YString ",");
              SetPMode true; Yield (YPromise 0 None); SetPMode false;
              Yield YUndefined; Yield (YString "]")] Returned)); [reflexivity|].
    rewrite jsonGenerator_S. cbn [jsonGenerator_body].
    rewrite observe_arrayGenerator_identity.
    cbn [map nullify absent elements toJSON].
    rewrite !observe_gen_gseq, jsonGenerator_VFulfils by exact Np.
    now rewrite (jsonGenerator_absent _ fuel x Hx).
Qed.

Lemma late_absence_leaves_a_hole_witness :
  absent VUndefined = true
  /\ serialize 3 (VObj [("a", VFulfils 5 VUndefined)]) no_replacer
     = [Data "{"; Data (key_fragment "a"); Data EmptyString; Data "}"; End].
Proof.
  split; [reflexivity|].
  apply (proj1 (proj2 (proj2 (late_absence_leaves_a_hole 0 VUndefined eq_refl))) "a" 5).
  discriminate.
Defined.

(** ** Where the replacer is consulted *)

Lemma jsonGenerator_replacer_free R1 R2 : forall fuel v,
  replacer_free v = true -> jsonGenerator R1 fuel v = jsonGenerator R2 fuel v.
Proof.
  induction fuel as [|fuel IH]; intros v Hv; [reflexivity|].
  destruct v as [| | | | | | | | |t x| | |]; try discriminate; try reflexivity.
  cbn [replacer_free] in Hv.
  destruct (outcome t x) as [[t' y]|[t' e]] eqn:E.
  - rewrite !(jsonGenerator_fulfils _ fuel t x t' y E).
    destruct (outcome_fulfilled x _ _ _ E) as (_ & _ & _ & _ & H5).
    now rewrite (IH y (H5 Hv)).
  - now rewrite !(jsonGenerator_adopts_rejection _ fuel t x t' e E).
Qed.

Lemma toJSON_replacer_free v : replacer_free v = true -> toJSON v = v.
Proof. destruct v; try discriminate; reflexivity. Qed.

Lemma jsonGenerator_no_call R : forall fuel v,
  replacer_free v = true -> calls_in (events (jsonGenerator R fuel v)) = 0.
Proof.
  induction fuel as [|fuel IH]; intros v Hv; [reflexivity|].
  destruct v as [| | | | | | | | |t x| | |]; try discriminate; try reflexivity.
  cbn [replacer_free] in Hv.
  destruct (outcome t x) as [[t' y]|[t' e]] eqn:E.
  - rewrite (jsonGenerator_fulfils _ fuel t x t' y E). cbn [events calls_in].
    destruct (outcome_fulfilled x _ _ _ E) as (_ & _ & _ & _ & H5). now apply IH, H5.
  - now rewrite (jsonGenerator_adopts_rejection _ fuel t x t' e E).
Qed.

(** X4. The replacer is consulted only by [arrayGenerator] and
    [objectGenerator].  For a root that is a number, a string, a boolean,
    [null], [undefined], a function or a text source, or a promise that
    resolves to one of these, the replacer is never called and the run is
    the same whatever replacer is given; in particular a transform
    function cannot substitute such a root. *)
Theorem replacer_is_not_consulted_for_scalars :
  forall fuel v r1 r2,
    replacer_free v = true ->
    serialize fuel v r1 = serialize fuel v r2
    /\ calls_in (events (jsonIterator (new_JStream fuel v r1))) = 0.
Proof.
  intros fuel v r1 r2 Hv. unfold serialize, new_JStream.
  rewrite (toJSON_replacer_free v Hv). split.
  - now rewrite (jsonGenerator_replacer_free (normalize_replacer r1)
                   (normalize_replacer r2) fuel v Hv).
  - cbn [fresh jsonIterator]. now apply jsonGenerator_no_call.
Qed.

Lemma replacer_is_not_consulted_for_scalars_witness :
  replacer_free (VFulfils 2 (VNum 21)) = true
  /\ serialize 2 (VFulfils 2 (VNum 21)) (RFn doubling) = [Data "21"; End].
Proof.
  split; [reflexivity|].
  exact (proj1 (replacer_is_not_consulted_for_scalars 2 (VFulfils 2 (VNum 21))
                  (RFn doubling) no_replacer eq_refl)).
Defined.

(** ** Transform functions that do not return a container *)

(** X5. [arrayGenerator] calls [map] on whatever the transform function
    returns for the whole array (lines 78-80).  When that is neither an
    array nor an object with a [map] method, the call throws before
    anything is yielded: for a root array the first [_read] lets the
    exception out and nothing is pushed, not even the opening bracket;
    for an array a promise resolved to, the [catch] of line 177 turns the
    exception into the error signal.  For an object, [Object.assign]
    (line 112) copies nothing from a result that has no property of its
    own, and the output is an empty object. *)
Theorem transform_result_must_be_mappable :
  forall (f : option string -> value -> value) fuel,
    (forall items,
        mappable (f None (VArr items)) = false ->
        serialize (S fuel) (VArr items) (RFn f) = [Uncaught not_a_function]
        /\ (forall t, serialize (S (S fuel)) (VFulfils t (VArr items)) (RFn f)
                      = [Error not_a_function]))
    /\ (forall props,
        toJSON (VObj props) = VObj props ->
        own_enumerable (f None (VObj props)) = Some [] ->
        serialize (S fuel) (VObj props) (RFn f) = [Data "{"; Data "}"; End]).
Proof.
  intros f fuel. split.
  - intros items H.
    assert (G : jsonGenerator (RFn f) (S fuel) (VArr items)
                = MkGen [Call None (VArr items)] (Threw not_a_function)).
    { rewrite jsonGenerator_S. cbn [jsonGenerator_body]. unfold arrayGenerator.
      cbn [as_function]. unfold mappable in H.
      destruct (f None (VArr items)); try discriminate; now rewrite H. }
    split.
    + unfold serialize, new_JStream. cbn [toJSON].
      change (normalize_replacer (RFn f)) with (RFn f). now rewrite G.
    + intros t. unfold serialize, new_JStream. cbn [toJSON].
      change (normalize_replacer (RFn f)) with (RFn f).
      now rewrite jsonGenerator_VFulfils, G.
  - intros props T H. unfold serialize, new_JStream. rewrite T.
    change (normalize_replacer (RFn f)) with (RFn f).
    rewrite jsonGenerator_S. cbn [jsonGenerator_body]. unfold objectGenerator.
    cbn [as_function]. now rewrite H.
Qed.

Lemma transform_result_must_be_mappable_witness :
  mappable (always_five None (VArr [VNum 1])) = false
  /\ serialize 1 (VArr [VNum 1]) (RFn always_five) = [Uncaught not_a_function].
Proof.
  split; [reflexivity|].
  exact (proj1 (proj1 (transform_result_must_be_mappable always_five 0)
                  [VNum 1] eq_refl)).
Defined.

(** ** Lists of keys *)

Lemma elements_pointwise rec1 rec2 (l : list value) :
  (forall x, rec1 x = rec2 x) -> elements rec1 l = elements rec2 l.
Proof.
  intros H. induction l as [|x l IH]; [reflexivity|].
  cbn [elements]. rewrite H. destruct l; [reflexivity|]. now rewrite IH.
Qed.

Lemma members_pointwise rec1 rec2 (obj : list (string * value)) :
  (forall x, rec1 x = rec2 x) -> members rec1 obj = members rec2 obj.
Proof.
  intros H. induction obj as [|[k x] obj IH]; [reflexivity|].
  cbn [members]. rewrite H. destruct obj; [reflexivity|]. now rewrite IH.
Qed.

Lemma allowed_members_includes a1 a2 props :
  (forall key, includes a1 key = includes a2 key) ->
  allowed_members a1 props = allowed_members a2 props.
Proof.
  intros H. induction props as [|[k x] props IH]; [reflexivity|].
  cbn [allowed_members]. now rewrite H, IH.
Qed.

Lemma inherits_stream_includes a1 a2 props :
  (forall key, includes a1 key = includes a2 key) ->
  inherits_stream a1 props = inherits_stream a2 props.
Proof.
  intros H. induction props as [|[k x] props IH]; [reflexivity|].
  cbn [inherits_stream existsb fst snd]. rewrite H. f_equal. exact IH.
Qed.

Lemma jsonGenerator_includes a1 a2 :
  (forall key, includes a1 key = includes a2 key) ->
  forall fuel v,
    jsonGenerator (RVal (VArr a1)) fuel v = jsonGenerator (RVal (VArr a2)) fuel v.
Proof.
  intros H. induction fuel as [|fuel IH]; intros v; [reflexivity|].
  rewrite !jsonGenerator_S.
  destruct v as [| | | | | | |items|props|t x|t e|chunks failure|items failure];
    try reflexivity; cbn [jsonGenerator_body].
  - unfold arrayGenerator. cbn [as_function].
    now rewrite (elements_pointwise _ _ (map nullify items) IH).
  - unfold objectGenerator. cbn [as_function as_array].
    now rewrite (inherits_stream_includes a1 a2 props H),
      (allowed_members_includes a1 a2 props H),
      (members_pointwise _ _ (allowed_members a2 props) IH).
  - destruct (outcome t x) as [[t' y]|[t' e]]; [now rewrite IH|reflexivity].
  - unfold new_ObjectReader.
    rewrite (reader_output_ext (jsonGenerator (RVal (VArr a1)) fuel)
               (jsonGenerator (RVal (VArr a2)) fuel) failure items items true);
      [reflexivity|].
    apply Forall2_diag. intros x. now rewrite IH.
Qed.

Lemma includes_not_a_string x allow key :
  (forall s, x <> VStr s) -> includes (x :: allow) key = includes allow key.
Proof.
  intros H. cbn [includes existsb]. destruct x; try reflexivity.
  exfalso. now apply (H s).
Qed.

(** X6. Under an array replacer only [replacer.includes(key)] is asked
    (line 127): two lists with the same strings give the same run,
    whatever their order and their repetitions, and an entry that is not a
    string never selects a key -- a number in the list does not select
    the key that spells it. *)
Theorem only_the_listed_strings_matter :
  forall a1 a2 fuel v,
    (forall key, includes a1 key = includes a2 key) ->
    serialize fuel v (RVal (VArr a1)) = serialize fuel v (RVal (VArr a2))
    /\ (forall x, (forall s, x <> VStr s) ->
          serialize fuel v (RVal (VArr (x :: a1))) = serialize fuel v (RVal (VArr a1)))
    /\ output (serialize 2 (VObj [("1", VBool true); ("a", VNull)])
                         (RVal (VArr [VNum 1; VStr "a"])))
       = ("{" ++ quoted "a" ++ ":null}")%string.
Proof.
  intros a1 a2 fuel v H. split; [|split; [|reflexivity]].
  - unfold serialize, new_JStream.
    change (normalize_replacer (RVal (VArr a1))) with (RVal (VArr a1)).
    change (normalize_replacer (RVal (VArr a2))) with (RVal (VArr a2)).
    now rewrite (jsonGenerator_includes a1 a2 H).
  - intros x Hx. unfold serialize, new_JStream.
    change (normalize_replacer (RVal (VArr (x :: a1)))) with (RVal (VArr (x :: a1))).
    change (normalize_replacer (RVal (VArr a1))) with (RVal (VArr a1)).
    rewrite (jsonGenerator_includes (x :: a1) a1); [reflexivity|].
    intros key. now apply includes_not_a_string.
Qed.

Lemma only_the_listed_strings_matter_witness :
  (forall key, includes [VStr "a"; VStr "b"] key = includes [VStr "b"; VStr "a"; VStr "a"] key)
  /\ serialize 3 nested_example (RVal (VArr [VStr "a"; VStr "b"]))
     = serialize 3 nested_example (RVal (VArr [VStr "b"; VStr "a"; VStr "a"])).
Proof.
  assert (H : forall key, includes [VStr "a"; VStr "b"] key
                          = includes [VStr "b"; VStr "a"; VStr "a"] key).
  { intros key. cbn [includes existsb].
    destruct (String.eqb "a" key), (String.eqb "b" key); reflexivity. }
  split; [exact H|].
  exact (proj1 (only_the_listed_strings_matter _ _ 3 nested_example H)).
Defined.

(** X7. Under the identity replacer or a list of keys, an array is the
    opening bracket, the whole serialisation of each element in turn (an
    absent element as null), a comma chunk between two elements, and the
    closing bracket, each element's end of output giving way to what
    follows; an element that ends in an error ends the array there. *)
Theorem array_is_the_chain_of_its_elements :
  forall fuel items rep,
    identity_or_allowlist rep ->
    serialize (S fuel) (VArr items) rep
    = Data "[" :: chain (map (fun x => serialize fuel (nullify x) rep) items)
                        [Data "]"; End].
Proof.
  intros fuel items rep HR. unfold serialize, new_JStream.
  cbn [toJSON]. rewrite jsonGenerator_S. cbn [jsonGenerator_body].
  set (R := normalize_replacer rep) in *.
  pose proof (run_array_loop R fuel (map nullify items)) as Loop.
  rewrite map_map in Loop.
  unfold arrayGenerator. destruct HR as [E|[allow E]]; fold R in E; rewrite E in *;
    cbn [as_function]; [|exact Loop].
  change (identity_replacer None (VArr items)) with (VArr items). cbn iota.
  rewrite run_fresh_perform_Call, run_fresh_calls_mapi, mapi_identity. exact Loop.
Qed.

Lemma array_is_the_chain_of_its_elements_witness :
  identity_or_allowlist no_replacer
  /\ serialize 3 (VArr [VNum 1; VUndefined; VArr [VRejects 3 "boom"]; VNum 2]) no_replacer
     = [Data "["; Data "1"; Data ","; Data "null"; Data ","; Data "["; Error "boom"].
Proof.
  split; [left; reflexivity|].
  rewrite (array_is_the_chain_of_its_elements 2
             [VNum 1; VUndefined; VArr [VRejects 3 "boom"]; VNum 2] no_replacer).
  - reflexivity.
  - left. reflexivity.
Defined.

Lemma assigned_keeps_prototype props :
  keeps_prototype props = true ->
  assigned props = Some (filter (fun kx => negb (is_proto_key (fst kx))) props).
Proof.
  induction props as [|[k x] props IH]; [reflexivity|].
  cbn [keeps_prototype forallb fst snd]. intros H. apply andb_prop in H.
  destruct H as [Hk Hp]. cbn [assigned filter fst]. rewrite (IH Hp).
  destruct (is_proto_key k); [|reflexivity].
  cbn [andb negb] in Hk. apply negb_true_iff in Hk. now rewrite Hk.
Qed.

Lemma inherits_stream_keeps_prototype allow props :
  keeps_prototype props = true -> inherits_stream allow props = false.
Proof.
  induction props as [|[k x] props IH]; [reflexivity|].
  cbn [keeps_prototype forallb fst snd]. intros H. apply andb_prop in H.
  destruct H as [Hk Hp].
  change (inherits_stream allow ((k, x) :: props))
    with ((is_proto_key k && includes allow k && is_stream x)
          || inherits_stream allow props).
  rewrite (IH Hp), orb_false_r.
  destruct (is_proto_key k); [|reflexivity].
  cbn [andb negb] in Hk. apply negb_true_iff in Hk.
  destruct x; try discriminate; now rewrite ?andb_false_r.
Qed.

Lemma kept_by_identity props :
  replace_members identity_replacer
    (filter (fun kx => negb (is_proto_key (fst kx))) props)
  = filter (fun kx => negb (absent (snd kx)) && negb (is_proto_key (fst kx))) props.
Proof.
  induction props as [|[k x] props IH]; [reflexivity|].
  cbn [filter fst snd]. destruct (is_proto_key k); cbn [negb].
  - now rewrite andb_false_r.
  - cbn [replace_members]. change (identity_replacer (Some k) x) with x.
    rewrite IH, andb_true_r. now destruct (absent x).
Qed.

Lemma kept_by_allowlist allow props :
  allowed_members allow props
  = filter (fun kx => negb (absent (snd kx)) && includes allow (fst kx)
                      && negb (is_proto_key (fst kx))) props.
Proof.
  rewrite allowed_members_filter. apply filter_ext. intros [k x]. cbn [fst snd].
  now rewrite (andb_comm (includes allow k)).
Qed.

(** X8. Under the identity replacer or a list of keys, an object without
    a conversion hook, and with no object under the key [proto_key], is
    the opening brace, then for each member that is present, whose key
    passes the list and is not [proto_key], in order, the key between
    quotes with a colon and the whole serialisation of the value, a comma
    chunk between two members, and the closing brace; a member that ends
    in an error ends the object there.  A member under [proto_key] gives
    no fragment at all. *)
Theorem object_is_the_chain_of_its_members :
  forall fuel props rep,
    identity_or_allowlist rep ->
    toJSON (VObj props) = VObj props ->
    keeps_prototype props = true ->
    serialize (S fuel) (VObj props) rep
    = Data "{" ::
      chain (map (fun kx => Data (key_fragment (fst kx)) :: serialize fuel (snd kx) rep)
                 (filter (fun kx => negb (absent (snd kx))
                                    && allowed (normalize_replacer rep) (fst kx)
                                    && negb (is_proto_key (fst kx))) props))
            [Data "}"; End].
Proof.
  intros fuel props rep HR Hook Hp. unfold serialize, new_JStream.
  rewrite Hook, jsonGenerator_S. cbn [jsonGenerator_body].
  set (R := normalize_replacer rep) in *.
  unfold objectGenerator. rewrite run_fresh_yield. f_equal.
  destruct HR as [E|[allow E]]; fold R in E; rewrite E in *;
    cbn [as_function as_array]; unfold allowed; cbn [as_array].
  - change (identity_replacer None (VObj props)) with (VObj props). cbn [own_enumerable].
    rewrite (assigned_keeps_prototype props Hp).
    rewrite run_fresh_perform_Call, run_fresh_calls_map, run_object_loop, kept_by_identity.
    f_equal. f_equal. apply filter_ext. intros [k x]. cbn [fst snd].
    now rewrite andb_true_r.
  - rewrite (inherits_stream_keeps_prototype allow props Hp).
    now rewrite run_object_loop, kept_by_allowlist.
Qed.

Lemma object_is_the_chain_of_its_members_witness :
  identity_or_allowlist (RVal (VArr [VStr "a"; VStr "p"; VStr proto_key]))
  /\ toJSON (VObj [("a", VNum 1); ("b", VNum 2); ("f", VFun VNull); (proto_key, VNum 3);
                   ("p", VFulfils 4 (VStr "x"))])
     = VObj [("a", VNum 1); ("b", VNum 2); ("f", VFun VNull); (proto_key, VNum 3);
             ("p", VFulfils 4 (VStr "x"))]
  /\ keeps_prototype [("a", VNum 1); ("b", VNum 2); ("f", VFun VNull); (proto_key, VNum 3);
                      ("p", VFulfils 4 (VStr "x"))] = true
  /\ serialize 3 (VObj [("a", VNum 1); ("b", VNum 2); ("f", VFun VNull); (proto_key, VNum 3);
                        ("p", VFulfils 4 (VStr "x"))])
               (RVal (VArr [VStr "a"; VStr "p"; VStr proto_key]))
     = [Data "{"; Data (key_fragment "a"); Data "1"; Data ",";
        Data (key_fragment "p"); Data (quoted "x"); Data "}"; End].
Proof.
  split; [right; eexists; reflexivity|]. split; [reflexivity|]. split; [reflexivity|].
  rewrite (object_is_the_chain_of_its_members 2
             [("a", VNum 1); ("b", VNum 2); ("f", VFun VNull); (proto_key, VNum 3);
              ("p", VFulfils 4 (VStr "x"))]
             (RVal (VArr [VStr "a"; VStr "p"; VStr proto_key]))).
  - reflexivity.
  - right. eexists. reflexivity.
  - reflexivity.
  - reflexivity.
Defined.

(** X9. Under a transform function the output is built from the
    function's results.  When it returns an array for an array, the
    output is the bracketed chain of the serialisations of its results
    for the elements of that array, absent results as null; for an
    object without a conversion hook it is the braced chain over the
    members of the copy whose result is present.  Each result is
    serialised under the same function, which is therefore applied again
    to a result that is itself an array or an object. *)
Theorem transform_results_are_serialised :
  forall (f : option string -> value -> value) fuel,
    (forall items a,
        f None (VArr items) = VArr a ->
        serialize (S fuel) (VArr items) (RFn f)
        = Data "[" ::
          chain (map (fun x => serialize fuel (nullify x) (RFn f))
                     (mapi (fun i x => f (Some (index_toString i)) x) 0 a))
                [Data "]"; End])
    /\ (forall props obj,
        toJSON (VObj props) = VObj props ->
        own_enumerable (f None (VObj props)) = Some obj ->
        serialize (S fuel) (VObj props) (RFn f)
        = Data "{" ::
          chain (map (fun kx => Data (key_fragment (fst kx))
                                :: serialize fuel (snd kx) (RFn f))
                     (replace_members f obj))
                [Data "}"; End]).
Proof.
  intros f fuel. split.
  - intros items a Ha. unfold serialize, new_JStream.
    change (normalize_replacer (RFn f)) with (RFn f).
    cbn [toJSON]. rewrite jsonGenerator_S. cbn [jsonGenerator_body].
    unfold arrayGenerator. cbn [as_function]. rewrite Ha.
    rewrite run_fresh_perform_Call, run_fresh_calls_mapi, run_array_loop.
    now rewrite !map_mapi.
  - intros props obj Hook Ho. unfold serialize, new_JStream.
    change (normalize_replacer (RFn f)) with (RFn f).
    rewrite Hook, jsonGenerator_S. cbn [jsonGenerator_body].
    unfold objectGenerator. cbn [as_function]. rewrite Ho, run_fresh_yield. f_equal.
    rewrite run_fresh_perform_Call, run_fresh_calls_map. apply run_object_loop.
Qed.

Lemma transform_results_are_serialised_witness :
  doubling None (VArr [VNum 1; VNum 2; VNum 3]) = VArr [VNum 1; VNum 2; VNum 3]
  /\ serialize 2 (VArr [VNum 1; VNum 2; VNum 3]) (RFn doubling)
     = [Data "["; Data "2"; Data ","; Data "4"; Data ","; Data "6"; Data "]"; End].
Proof.
  split; [reflexivity|].
  destruct (transform_results_are_serialised doubling 1) as [A _].
  rewrite (A [VNum 1; VNum 2; VNum 3] [VNum 1; VNum 2; VNum 3]).
  - reflexivity.
  - reflexivity.
Defined.

(** ** A promise in front of a value *)

Lemma run_awaited_plain t evs c pm clk :
  starts_plain evs = true ->
  run (St (awaited t evs) c None pm clk) = run (St evs c None false 0).
Proof.
  induction evs as [|e evs IH]; intros H; [discriminate|].
  destruct e as [k a|b|s|y]; cbn [starts_plain] in H; try discriminate.
  - rewrite run_fulfilled_Call, run_Call. now apply IH.
  - destruct evs as [|[| | |[f| |]] evs]; try discriminate.
    rewrite run_fulfilled_SetSrc, run_SetSrc. f_equal.
    rewrite (run_clock evs c (Some s) false (Nat.max clk t)). reflexivity.
  - destruct y as [s| |t' r]; try discriminate.
    + rewrite run_fulfilled_string, run_Yield. f_equal.
      rewrite (run_clock evs c None false (Nat.max clk t)). reflexivity.
    + rewrite run_fulfilled_undefined, run_Yield_undefined. f_equal.
      rewrite (run_clock evs c None false (Nat.max clk t)). reflexivity.
Qed.

Lemma starts_plain_calls_mapi (a : list value) evs : forall n,
  starts_plain (mapi (fun i x => Call (Some (index_toString i)) x) n a ++ evs)
  = starts_plain evs.
Proof. induction a as [|x a IH]; intros n; simpl; [reflexivity|apply IH]. Qed.

Lemma jsonGenerator_starts_plain R fuel v :
  R = RFn identity_replacer \/ (exists allow, R = RVal (VArr allow)) ->
  is_promise v = false ->
  starts_plain (events (jsonGenerator R (S fuel) v)) = true.
Proof.
  intros HR Hv.
  destruct v as [| |b| | |s|r|items|props|t x|t e|chunks failure|items failure];
    try discriminate; try reflexivity.
  (* only arrays do something before their first yield *)
  cbn [jsonGenerator jsonGenerator_body]. unfold arrayGenerator.
  destruct HR as [->|[allow ->]]; cbn [as_function].
  - unfold identity_replacer at 1.
    rewrite events_perform, events_returned. cbn [starts_plain].
    rewrite starts_plain_calls_mapi. unfold yield_. now rewrite events_perform.
  - unfold yield_. now rewrite events_perform.
Qed.

(** X10. Under the identity replacer or a list of keys, a promise that
    fulfils with a value that is not itself a promise and has no
    conversion hook gives exactly the signals of that value: the wait
    leaves no trace in the output. *)
Theorem fulfilled_promise_is_transparent :
  forall fuel t v rep,
    identity_or_allowlist rep ->
    is_promise v = false ->
    toJSON v = v ->
    serialize (S (S fuel)) (VFulfils t v) rep = serialize (S fuel) v rep.
Proof.
  intros fuel t v rep HR Hp Hook. unfold serialize, new_JStream.
  cbn [toJSON]. rewrite Hook, jsonGenerator_VFulfils, !run_fresh by exact Hp.
  cbn [events completion_of].
  apply run_awaited_plain. now apply jsonGenerator_starts_plain.
Qed.

Lemma fulfilled_promise_is_transparent_witness :
  identity_or_allowlist no_replacer
  /\ is_promise (VArr [VNum 1; VText ["a"; "b"] None]) = false
  /\ toJSON (VArr [VNum 1; VText ["a"; "b"] None]) = VArr [VNum 1; VText ["a"; "b"] None]
  /\ serialize 4 (VFulfils 7 (VArr [VNum 1; VText ["a"; "b"] None])) no_replacer
     = serialize 3 (VArr [VNum 1; VText ["a"; "b"] None]) no_replacer.
Proof.
  split; [left; reflexivity|]. split; [reflexivity|]. split; [reflexivity|].
  apply (fulfilled_promise_is_transparent 2 7 (VArr [VNum 1; VText ["a"; "b"] None])
           no_replacer).
  - left. reflexivity.
  - reflexivity.
  - reflexivity.
Defined.

(** ** The recursion budget *)

Lemma elements_local rec1 rec2 (l : list value) :
  (forall x, In x l -> rec1 (toJSON x) = rec2 (toJSON x)) ->
  elements rec1 l = elements rec2 l.
Proof.
  induction l as [|x l IH]; intros H; [reflexivity|].
  cbn [elements]. rewrite (H x (or_introl eq_refl)). destruct l; [reflexivity|].
  now rewrite IH by (intros z Hz; apply H; now right).
Qed.

Lemma members_local rec1 rec2 (obj : list (string * value)) :
  (forall key x, In (key, x) obj -> rec1 (toJSON x) = rec2 (toJSON x)) ->
  members rec1 obj = members rec2 obj.
Proof.
  induction obj as [|[k x] obj IH]; intros H; [reflexivity|].
  cbn [members]. rewrite (H k x (or_introl eq_refl)). destruct obj; [reflexivity|].
  now rewrite IH by (intros k' z Hz; apply (H k' z); now right).
Qed.

Lemma reader_output_local rec1 rec2 failure items : forall first,
  (forall x, In x items -> rec1 (toJSON (nullify x)) = rec2 (toJSON (nullify x))) ->
  reader_output rec1 first items failure = reader_output rec2 first items failure.
Proof.
  induction items as [|item items IH]; intros first H; [reflexivity|].
  cbn [reader_output]. rewrite (H item (or_introl eq_refl)).
  now rewrite (IH false) by (intros z Hz; apply H; now right).
Qed.

Lemma assigned_In props : forall obj,
  assigned props = Some obj -> forall kx, In kx obj -> In kx props.
Proof.
  induction props as [|[k x] props IH]; intros obj E kx Hin.
  - inversion E; subst. destruct Hin.
  - cbn [assigned] in E. destruct (is_proto_key k).
    + destruct (changes_prototype x); [discriminate|]. right. now apply (IH obj).
    + destruct (assigned props) as [o|]; [|discriminate]. inversion E; subst.
      destruct Hin as [<-|Hin]; [now left|]. right. now apply (IH o).
Qed.

(** Once the budget is above the height of the value, a larger budget
    changes nothing. *)
Lemma jsonGenerator_budget R :
  R = RFn identity_replacer \/ (exists allow, R = RVal (VArr allow)) ->
  forall fuel v, height v < fuel -> jsonGenerator R (S fuel) v = jsonGenerator R fuel v.
Proof.
  intros HR. induction fuel as [|fuel IH]; intros v Hv; [lia|].
  assert (Element : forall x items, In x items -> list_max (map height items) < fuel ->
            jsonGenerator R (S fuel) (toJSON (nullify x))
            = jsonGenerator R fuel (toJSON (nullify x))).
  { intros x items Hx Hm. apply IH.
    pose proof (height_toJSON (nullify x)). pose proof (height_nullify x).
    pose proof (in_list_max height x items Hx). lia. }
  assert (Member : forall (key : string) x props, In (key, x) props ->
            list_max (map (fun '((_, y) : string * value) => height y) props) < fuel ->
            jsonGenerator R (S fuel) (toJSON x) = jsonGenerator R fuel (toJSON x)).
  { intros key x props Hx Hm. apply IH.
    pose proof (height_toJSON x).
    pose proof (in_list_max (fun '((_, y) : string * value) => height y)
                  (key, x) props Hx) as M.
    cbn beta iota in M. lia. }
  rewrite (jsonGenerator_S R (S fuel)), (jsonGenerator_S R fuel).
  destruct v as [| | | | | | |items|props|t x|t e|chunks failure|items failure];
    try reflexivity; cbn [height] in Hv; cbn [jsonGenerator_body].
  - (* arrays *)
    unfold arrayGenerator.
    assert (Loop : elements (jsonGenerator R (S fuel)) (map nullify items)
                   = elements (jsonGenerator R fuel) (map nullify items)).
    { apply elements_local. intros x Hx. apply in_map_iff in Hx.
      destruct Hx as (y & <- & Hy). apply (Element y items Hy). lia. }
    destruct HR as [->|[allow ->]]; cbn [as_function]; [|now rewrite Loop].
    change (identity_replacer None (VArr items)) with (VArr items). cbn iota.
    rewrite !mapi_identity. now rewrite Loop.
  - (* objects *)
    unfold objectGenerator.
    destruct HR as [->|[allow ->]]; cbn [as_function as_array].
    + change (identity_replacer None (VObj props)) with (VObj props).
      cbn [own_enumerable]. destruct (assigned props) as [obj|] eqn:Eo; [|reflexivity].
      rewrite (members_local (jsonGenerator (RFn identity_replacer) (S fuel))
                             (jsonGenerator (RFn identity_replacer) fuel)); [reflexivity|].
      intros key x Hx. apply replace_members_identity_In in Hx.
      apply (assigned_In props obj Eo) in Hx.
      apply (Member key x props Hx). lia.
    + destruct (inherits_stream allow props); [reflexivity|].
      rewrite (members_local (jsonGenerator (RVal (VArr allow)) (S fuel))
                             (jsonGenerator (RVal (VArr allow)) fuel)); [reflexivity|].
      intros key x Hx. apply allowed_members_In in Hx.
      apply (Member key x props Hx). lia.
  - (* a promise that fulfils *)
    destruct (outcome t x) as [[t' y]|[t' e]] eqn:E; [|reflexivity].
    destruct (outcome_fulfilled x _ _ _ E) as (_ & H2 & _).
    now rewrite IH by lia.
  - (* an item source *)
    unfold new_ObjectReader.
    rewrite (reader_output_local (jsonGenerator R (S fuel)) (jsonGenerator R fuel));
      [reflexivity|].
    intros x Hx. apply (Element x items Hx). lia.
Qed.

Lemma jsonGenerator_any_budget R :
  R = RFn identity_replacer \/ (exists allow, R = RVal (VArr allow)) ->
  forall fuel more v, height v < fuel ->
    jsonGenerator R (more + fuel) v = jsonGenerator R fuel v.
Proof.
  intros HR fuel more v Hv. induction more as [|more IH]; [reflexivity|].
  cbn [Nat.add]. rewrite jsonGenerator_budget by (exact HR || lia). exact IH.
Qed.

(** X11. Under the identity replacer or a list of keys, reading the stream
    of an ordinary root (no member under [proto_key] at any depth) to the
    end gives chunks closed by exactly one final signal, the end
    of output or an error: no exception leaves the read function and the
    stream is never left hanging.  The signals do not depend on the
    recursion budget of the model once it is above the height of the
    root. *)
Theorem serialization_ends_with_end_or_error :
  forall fuel root rep,
    identity_or_allowlist rep ->
    height root < fuel ->
    ordinary root = true ->
    (exists frags final,
        serialize fuel root rep = map Data frags ++ [final]
        /\ (final = End \/ exists e, final = Error e)
        /\ output (serialize fuel root rep) = join frags)
    /\ (forall e, ~ In (Uncaught e) (serialize fuel root rep))
    /\ ~ In Cutoff (serialize fuel root rep)
    /\ (forall more, serialize (more + fuel) root rep = serialize fuel root rep).
Proof.
  intros fuel root rep HR Hh Ho.
  destruct (serialize_finishes fuel root rep HR Hh Ho) as (frags & final & E & Hfinal).
  assert (NotIn : forall s, (forall c, s <> Data c) -> s <> final ->
                    ~ In s (serialize fuel root rep)).
  { intros s Hd Hf Hin. rewrite E in Hin. apply in_app_or in Hin.
    destruct Hin as [Hin|[Hin|[]]].
    - apply in_map_iff in Hin. destruct Hin as (c & Hc & _). now apply (Hd c).
    - now apply Hf. }
  split; [|split; [|split]].
  - exists frags, final. split; [exact E|]. split; [exact Hfinal|].
    rewrite E, output_app. unfold output at 1. rewrite map_map. cbn [chunk_of].
    rewrite map_id.
    destruct Hfinal as [->|[e ->]]; apply string_app_nil_r.
  - intros e. apply NotIn; [discriminate|].
    destruct Hfinal as [->|[e' ->]]; discriminate.
  - apply NotIn; [discriminate|].
    destruct Hfinal as [->|[e' ->]]; discriminate.
  - intros more. unfold serialize, new_JStream.
    rewrite jsonGenerator_any_budget; [reflexivity|exact HR|].
    pose proof (height_toJSON root). lia.
Qed.

Lemma serialization_ends_with_end_or_error_witness :
  identity_or_allowlist no_replacer
  /\ height (VObj [("a", VArr [VFulfils 2 (VNum 1)]); ("b", VRejects 1 "boom")]) < 4
  /\ ordinary (VObj [("a", VArr [VFulfils 2 (VNum 1)]); ("b", VRejects 1 "boom")]) = true
  /\ ~ In Cutoff
         (serialize 4 (VObj [("a", VArr [VFulfils 2 (VNum 1)]); ("b", VRejects 1 "boom")])
                    no_replacer).
Proof.
  split; [left; reflexivity|]. split; [vm_compute; lia|]. split; [reflexivity|].
  apply (serialization_ends_with_end_or_error 4
           (VObj [("a", VArr [VFulfils 2 (VNum 1)]); ("b", VRejects 1 "boom")])
           no_replacer).
  - left. reflexivity.
  - vm_compute. lia.
  - reflexivity.
Defined.

(** ** Agreement with the built-in serialisation *)

(** X12. With a replacer that is neither a function nor an array, a JSON
    value none of whose keys needs escaping or is [proto_key], and whose
    numbers are safe integers, is pushed fragment by fragment and the
    collected output is the text [JSON.stringify] gives. *)
Theorem plain_json_output_is_JSON_stringify :
  forall fuel j rep,
    normalize_replacer rep = RFn identity_replacer ->
    plain_keys j = true ->
    safe_numbers j = true ->
    depth j < fuel ->
    serialize fuel (of_json j) rep = map Data (fragments j) ++ [End]
    /\ output (serialize fuel (of_json j) rep) = JSON.stringify j.
Proof.
  intros fuel j rep HR Hk _ Hd.
  assert (E : serialize fuel (of_json j) rep = serialize fuel (of_json j) no_replacer).
  { unfold serialize, new_JStream. now rewrite HR. }
  rewrite E. now apply identity_agrees_with_JSON_stringify.
Qed.

Lemma plain_json_output_is_JSON_stringify_witness :
  normalize_replacer (RVal (VStr "tab")) = RFn identity_replacer
  /\ output (serialize 3 (of_json (JSON.JObj [("a", JSON.JArr [JSON.JNum 1; JSON.JNull]);
                                               ("b", JSON.JStr "x")]))
                       (RVal (VStr "tab")))
     = JSON.stringify (JSON.JObj [("a", JSON.JArr [JSON.JNum 1; JSON.JNull]);
                                  ("b", JSON.JStr "x")]).
Proof.
  split; [reflexivity|].
  apply (plain_json_output_is_JSON_stringify 3
           (JSON.JObj [("a", JSON.JArr [JSON.JNum 1; JSON.JNull]); ("b", JSON.JStr "x")])
           (RVal (VStr "tab"))).
  - reflexivity.
  - reflexivity.
  - reflexivity.
  - vm_compute. lia.
Defined.
